(** * The calculator of myServiceGoBot: tokenizer, shunting-yard, RPN evaluator

    A shallow embedding of the arithmetic evaluator of [main.go]
    ([evalExpr], [tokenize], [rewriteUnaryMinus], [prec], [shuntingYard],
    [evalRPN], [trimFloat]) and the properties its specification states,
    followed by the password generator ([genPassword8], [randInt]), the
    framing of the note encryption ([encryptAESGCM], [decryptAESGCM]) and
    the message handler ([handleMessage], [messageToPayload]) with
    properties of their own.

    Conventions of the embedding:
    - a Go [string] is a Rocq [string] (a sequence of bytes, [ascii]);
    - a Go [float64] is a primitive binary64 [float];
    - a Go [error] is a value of [error], one constructor per message the
      calculator builds; [Error] gives the message text, which is all a
      caller of [err.Error()] can observe;
    - [(T, error)] results are [result T];
    - a slice used as a stack ([stack], [st]) is a list whose head is the
      top of the stack (the last element of the slice); a slice used as an
      output buffer ([out]) is a list in slice order. *)

From Stdlib Require Import Bool Ascii String List ZArith Lia Floats DecimalString
  Permutation.
From Equations Require Import Equations.
Import ListNotations.

Local Open Scope string_scope.
Local Open Scope list_scope.

(** ** Errors and results *)

(** The errors of the calculator, by the message they carry. *)
Inductive error : Set :=
| empty_expression          (* errors.New("empty expression") *)
| bad_char (c : ascii)      (* fmt.Errorf("bad char: %q", c) *)
| mismatched_parentheses    (* errors.New("mismatched parentheses") *)
| bad_number                (* errors.New("bad number") *)
| bad_expression            (* errors.New("bad expression"), two sites in evalRPN *)
| division_by_zero          (* errors.New("division by zero") *)
| bad_result.               (* errors.New("bad result") *)

Inductive result (A : Type) : Type :=
| Ok (a : A)
| Err (e : error).
Arguments Ok {A} a.
Arguments Err {A} e.

Definition bind {A B : Type} (r : result A) (k : A -> result B) : result B :=
  match r with
  | Ok a => k a
  | Err e => Err e
  end.

Notation "x <- r ;; k" := (bind r (fun x => k))
  (at level 61, r at next level, right associativity).

(** ** Tokens *)

Inductive tokType : Set := tNumber | tOp | tLParen | tRParen.

Record token : Set := mkToken { typ : tokType; val : string }.

Definition tokType_eqb (a b : tokType) : bool :=
  match a, b with
  | tNumber, tNumber | tOp, tOp | tLParen, tLParen | tRParen, tRParen => true
  | _, _ => false
  end.

(** ** tokenize *)

(** [strings.ReplaceAll] of [" "] by the empty string: every byte 0x20 is
    dropped. *)
Fixpoint removeSpaces (s : string) : string :=
  match s with
  | EmptyString => EmptyString
  | String c s' =>
      if Ascii.eqb c " " then removeSpaces s' else String c (removeSpaces s')
  end.

(** [(c >= '0' && c <= '9') || c == '.'] *)
Definition isNumChar (c : ascii) : bool :=
  (Ascii.leb "0" c && Ascii.leb c "9") || Ascii.eqb c ".".

(** [c == '+' || c == '-' || c == '*' || c == '/'] *)
Definition isOpChar (c : ascii) : bool :=
  Ascii.eqb c "+" || Ascii.eqb c "-" || Ascii.eqb c "*" || Ascii.eqb c "/".

(** The inner loop [for j < len(s) && isNumChar(s[j]) { j++ }], started on
    the bytes after the first one of a number: the run it walks over and
    what is left after it ([s[i+1:j]] and [s[j:]]). *)
Fixpoint scanNumber (s : string) : string * string :=
  match s with
  | EmptyString => (EmptyString, EmptyString)
  | String c s' =>
      if isNumChar c
      then let (run, rest) := scanNumber s' in (String c run, rest)
      else (EmptyString, s)
  end.

(** The scanning loop [for i < len(s) { c := s[i]; switch ... }].  The
    cursor [i] is kept as the unread suffix [s[i:]]; [out] is the token
    slice built so far. *)
Equations? scan (s : string) (out : list token) : result (list token)
  by wf (String.length s) lt :=
  scan EmptyString out := Ok out;
  scan (String c s') out :=
    if isNumChar c then
      scan (snd (scanNumber s'))
           (out ++ [mkToken tNumber (String c (fst (scanNumber s')))])
    else if isOpChar c then
      scan s' (out ++ [mkToken tOp (String c EmptyString)])
    else if Ascii.eqb c "(" then
      scan s' (out ++ [mkToken tLParen "("])
    else if Ascii.eqb c ")" then
      scan s' (out ++ [mkToken tRParen ")"])
    else Err (bad_char c).
Proof.
  all: try (simpl; lia).
  enough (String.length (snd (scanNumber s')) <= String.length s')
    by (simpl; lia).
  clear. induction s' as [|d s' IH]; simpl; [lia|].
  destruct (isNumChar d); simpl; [|lia].
  destruct (scanNumber s'); simpl in *; lia.
Qed.

(** ** rewriteUnaryMinus *)

(** [t.typ == tOp && t.val == "-"] *)
Definition isMinus (t : token) : bool :=
  tokType_eqb (typ t) tOp && String.eqb (val t) "-".

(** [toks[i-1].typ == tOp || toks[i-1].typ == tLParen], for [i-1] in range. *)
Definition prevIsOpOrLParen (toks : list token) (i : nat) : bool :=
  match nth_error toks (i - 1) with
  | Some p => tokType_eqb (typ p) tOp || tokType_eqb (typ p) tLParen
  | None => false
  end.

Definition zeroToken : token := mkToken tNumber "0".

(** One iteration of [for i := 0; i < len(toks); i++] at index [i]. *)
Definition rewriteBody (toks : list token) (out : list token) (i : nat)
  : list token :=
  match nth_error toks i with
  | Some t =>
      let out :=
        if isMinus t && (Nat.eqb i 0 || prevIsOpOrLParen toks i)
        then out ++ [zeroToken] else out in
      out ++ [t]
  | None => out
  end.

Definition rewriteUnaryMinus (toks : list token) : list token :=
  fold_left (rewriteBody toks) (seq 0 (List.length toks)) [].

Definition tokenize (s : string) : result (list token) :=
  let s := removeSpaces s in
  if String.eqb s EmptyString then Err empty_expression
  else
    out <- scan s [] ;;
    Ok (rewriteUnaryMinus out).

(** ** prec and shuntingYard *)

Definition prec (op : string) : Z :=
  if String.eqb op "+" || String.eqb op "-" then 1
  else if String.eqb op "*" || String.eqb op "/" then 2
  else 0.

(** The loop of the [tOp] case: operators of precedence at least that of
    [t] go from the stack to the output.  Returns the stack and the output. *)
Fixpoint popOps (t : token) (stack out : list token)
  : list token * list token :=
  match stack with
  | [] => ([], out)
  | top :: stack' =>
      if tokType_eqb (typ top) tOp && (prec (val t) <=? prec (val top))%Z
      then popOps t stack' (out ++ [top])
      else (stack, out)
  end.

(** The loop of the [tRParen] case: pops up to and including the nearest
    [tLParen].  Returns [found], the stack and the output. *)
Fixpoint popToLParen (stack out : list token)
  : bool * list token * list token :=
  match stack with
  | [] => (false, [], out)
  | top :: stack' =>
      if tokType_eqb (typ top) tLParen then (true, stack', out)
      else popToLParen stack' (out ++ [top])
  end.

(** The state of [shuntingYard]'s main loop. *)
Record syState : Set := mkSy { sy_out : list token; sy_stack : list token }.

(** One iteration of [for _, t := range toks]. *)
Definition syStep (st : syState) (t : token) : result syState :=
  match typ t with
  | tNumber => Ok (mkSy (sy_out st ++ [t]) (sy_stack st))
  | tOp =>
      let (stack, out) := popOps t (sy_stack st) (sy_out st) in
      Ok (mkSy out (t :: stack))
  | tLParen => Ok (mkSy (sy_out st) (t :: sy_stack st))
  | tRParen =>
      let '(found, stack, out) := popToLParen (sy_stack st) (sy_out st) in
      if found then Ok (mkSy out stack) else Err mismatched_parentheses
  end.

Fixpoint syLoop (toks : list token) (st : syState) : result syState :=
  match toks with
  | [] => Ok st
  | t :: toks' => st' <- syStep st t ;; syLoop toks' st'
  end.

(** The final loop [for len(stack) > 0]. *)
Fixpoint drain (stack out : list token) : result (list token) :=
  match stack with
  | [] => Ok out
  | top :: stack' =>
      if tokType_eqb (typ top) tLParen || tokType_eqb (typ top) tRParen
      then Err mismatched_parentheses
      else drain stack' (out ++ [top])
  end.

(** [var out []token; var stack []token] *)
Definition syInit : syState := mkSy [] [].

Definition shuntingYard (toks : list token) : result (list token) :=
  st <- syLoop toks syInit ;;
  drain (sy_stack st) (sy_out st).

(** ** evalRPN *)

Section RPN.

(** [strconv.ParseFloat(_, 64)] with its error reduced to failure. *)
Variable ParseFloat : string -> option float.

(** The [switch t.val] of the operator case; [r] keeps its zero value
    when no case matches. *)
Definition applyOp (op : string) (a b : float) : result float :=
  if String.eqb op "+" then Ok (a + b)%float
  else if String.eqb op "-" then Ok (a - b)%float
  else if String.eqb op "*" then Ok (a * b)%float
  else if String.eqb op "/" then
    if (b =? 0)%float then Err division_by_zero else Ok (a / b)%float
  else Ok 0%float.

(** One iteration of [for _, t := range toks]. *)
Definition rpnStep (st : list float) (t : token) : result (list float) :=
  match typ t with
  | tNumber =>
      match ParseFloat (val t) with
      | None => Err bad_number
      | Some v => Ok (v :: st)
      end
  | tOp =>
      match st with
      | b :: a :: st' => r <- applyOp (val t) a b ;; Ok (r :: st')
      | _ => Err bad_expression
      end
  | _ => Ok st
  end.

Fixpoint rpnLoop (toks : list token) (st : list float)
  : result (list float) :=
  match toks with
  | [] => Ok st
  | t :: toks' => st' <- rpnStep st t ;; rpnLoop toks' st'
  end.

(** The checks after the loop. *)
Definition rpnFinish (st : list float) : result float :=
  match st with
  | [v] =>
      if is_infinity v || is_nan v then Err bad_result else Ok v
  | _ => Err bad_expression
  end.

Definition evalRPN (toks : list token) : result float :=
  st <- rpnLoop toks [] ;; rpnFinish st.

End RPN.

(** ** The library functions the calculator calls

    [strconv.ParseFloat], [strconv.FormatFloat] and the [%q] verb of [fmt]
    belong to Go's standard library.  They are modelled here by what they
    compute: correctly rounded decimal-to-binary64 conversion, the shortest
    decimal that reads back as the same binary64, and a quoted character
    literal. *)

Module strconv.

Definition isDigit (c : ascii) : bool := Ascii.leb "0" c && Ascii.leb c "9".

Definition digitVal (c : ascii) : Z := (Z.of_N (N_of_ascii c) - 48)%Z.

(** Reads a string over the digits and ['.']: the digits as one integer
    [mant] and the number [frac] of digits after the point.  Fails on a
    second point, on no digit at all, and on any other byte. *)
Fixpoint readDecimal (s : string) (mant frac : Z) (sawdot sawdigits : bool)
  : option (Z * Z) :=
  match s with
  | EmptyString => if sawdigits then Some (mant, frac) else None
  | String c s' =>
      if Ascii.eqb c "." then
        if sawdot then None else readDecimal s' mant frac true sawdigits
      else if isDigit c then
        readDecimal s' (10 * mant + digitVal c)%Z
                    (if sawdot then (frac + 1)%Z else frac) sawdot true
      else None
  end.

(** The binary64 nearest to [mant / 10^frac], ties to even. *)
Definition decimalToFloat (mant frac : Z) : spec_float :=
  if (mant =? 0)%Z then S754_zero false
  else
    let '(q, e, l) := SFdiv_core_binary 53 1024 mant 0 (10 ^ frac) 0 in
    binary_round_aux 53 1024 false q e l.

(** [strconv.ParseFloat(s, 64)] on the strings [tokenize] produces for a
    number (digits and ['.'] only, see [tokenize_numbers]), with [None]
    for [err != nil]: a syntax error, or a range error when the value
    rounds to infinity.  Signs, exponents, hexadecimal and the special
    names, which ParseFloat also reads, are outside this model. *)
Definition ParseFloat (s : string) : option float :=
  match readDecimal s 0 0 false false with
  | None => None
  | Some (mant, frac) =>
      match decimalToFloat mant frac with
      | S754_infinity _ => None
      | f => Some (SF2Prim f)
      end
  end.

(** The shortest decimal between the bounds [L] and [U] around [V] (all
    three scaled to integers), nearest to [V] among the shortest: the
    decimal positions [P = 10^q] are tried from the highest down, and the
    first one at which [V] cut or raised to a multiple of [P] stays within
    the bounds decides. *)
Fixpoint shortest (q : nat) (P V L U : Z) (inclusive : bool) : Z :=
  let lo := (V / P * P)%Z in
  let hi := (lo + P)%Z in
  let okdown := (L <? lo)%Z || (inclusive && (lo =? L)%Z) in
  let okup := (hi <? U)%Z || (inclusive && (hi =? U)%Z) in
  let roundup :=
    match (2 * (V - lo) ?= P)%Z with
    | Lt => false
    | Gt => true
    | Eq => Z.odd (V / P)
    end in
  if okdown && okup then (if roundup then hi else lo)
  else if okdown then lo
  else if okup then hi
  else match q with
       | O => V
       | S q' => shortest q' (P / 10)%Z V L U inclusive
       end.

Definition digitChar (d : Z) : ascii := ascii_of_N (Z.to_N (48 + d)).

Definition formatNat (n : Z) : string :=
  NilZero.string_of_uint (N.to_uint (Z.to_N n)).

(** The decimals of [F / (10 * P)], where [P = 10^k'] at [k = S k'], up
    to the last one that is not ['0']. *)
Fixpoint fracDigits (k : nat) (P F : Z) : string :=
  match k with
  | O => EmptyString
  | S k' =>
      if (F =? 0)%Z then EmptyString
      else String (digitChar (F / P)) (fracDigits k' (P / 10)%Z (F mod P)%Z)
  end.

(** The text of the positive binary64 [m * 2^e].  Its neighbours are
    [(m - 1) * 2^e] (or [(2m - 1) * 2^(e-1)] below a power of two) and
    [(m + 1) * 2^e]; the bounds are the midpoints, included when [m] is
    even.  Everything is scaled by [10^K / 2^(e-2)] to integers. *)
Definition formatFinite (m : positive) (e : Z) : string :=
  let K := Z.max 0 (2 - e) in
  let B := if (2 <=? e)%Z then (2 ^ (e - 2))%Z else (5 ^ K)%Z in
  let V := (4 * Zpos m * B)%Z in
  let U := ((4 * Zpos m + 2) * B)%Z in
  let L := if (Zpos m =? 2 ^ 52)%Z && negb (e =? -1074)%Z
           then ((4 * Zpos m - 1) * B)%Z else ((4 * Zpos m - 2) * B)%Z in
  let q0 := (Z.log2 U / 3 + 1)%Z in
  let R := shortest (Z.to_nat q0) (10 ^ q0) V L U (Z.even (Zpos m)) in
  let T := (10 ^ K)%Z in
  let frac := fracDigits (Z.to_nat K) (T / 10)%Z (R mod T)%Z in
  (formatNat (R / T) ++
   match frac with EmptyString => EmptyString | _ => String "." frac end)%string.

(** [strconv.FormatFloat(v, 'f', -1, 64)] *)
Definition FormatFloat (v : float) : string :=
  match Prim2SF v with
  | S754_nan => "NaN"
  | S754_infinity false => "+Inf"
  | S754_infinity true => "-Inf"
  | S754_zero false => "0"
  | S754_zero true => "-0"
  | S754_finite false m e => formatFinite m e
  | S754_finite true m e => String "-" (formatFinite m e)
  end.

Definition hexChar (n : N) : ascii :=
  if (n <? 10)%N then ascii_of_N (48 + n) else ascii_of_N (87 + n).

Definition backslash : ascii := ascii_of_N 92.

(** [unicode.IsPrint] on the runes below 256. *)
Definition isPrint (n : N) : bool :=
  ((32 <=? n)%N && (n <? 127)%N) ||
  ((161 <=? n)%N && (n <=? 255)%N && negb (n =? 173)%N).

(** [strconv.QuoteRune(rune(c))] for a byte [c], which is what [%q]
    prints for a [byte] operand. *)
Definition QuoteRune (c : ascii) : string :=
  let n := N_of_ascii c in
  let esc (x : ascii) := String backslash (String x EmptyString) in
  let body :=
    if Ascii.eqb c "'" || Ascii.eqb c backslash then esc c
    else if isPrint n then
      if (n <? 128)%N then String c EmptyString
      else String (ascii_of_N (192 + n / 64))
                  (String (ascii_of_N (128 + n mod 64)) EmptyString)
    else if (n =? 7)%N then esc "a"%char
    else if (n =? 8)%N then esc "b"%char
    else if (n =? 12)%N then esc "f"%char
    else if (n =? 10)%N then esc "n"%char
    else if (n =? 13)%N then esc "r"%char
    else if (n =? 9)%N then esc "t"%char
    else if (n =? 11)%N then esc "v"%char
    else if (n <? 32)%N || (n =? 127)%N then
      (esc "x"%char ++
       String (hexChar (n / 16)) (String (hexChar (n mod 16)) EmptyString))%string
    else
      (esc "u"%char ++ "00" ++
       String (hexChar (n / 16)) (String (hexChar (n mod 16)) EmptyString))%string in
  ("'" ++ body ++ "'")%string.

End strconv.

(** [err.Error()] *)
Definition Error (e : error) : string :=
  match e with
  | empty_expression => "empty expression"
  | bad_char c => ("bad char: " ++ strconv.QuoteRune c)%string
  | mismatched_parentheses => "mismatched parentheses"
  | bad_number => "bad number"
  | bad_expression => "bad expression"
  | division_by_zero => "division by zero"
  | bad_result => "bad result"
  end.

(** ** evalExpr, trimFloat and the calculator reply *)

Definition evalExpr (s : string) : result float :=
  toks <- tokenize s ;;
  rpn <- shuntingYard toks ;;
  evalRPN strconv.ParseFloat rpn.

Definition trimFloat (v : float) : string := strconv.FormatFloat v.

(** What the calculator hands back for an expression: the text of the
    value ([trimFloat(val)], which the handler sends after ["= "]) or the
    error (whose message it sends after a fixed prefix).  This is the
    [evaluate] of the specification. *)
Definition evaluate (s : string) : result string :=
  v <- evalExpr s ;; Ok (trimFloat v).

(** ** The password generator *)

Section Password.

(** The width of Go's [int] in bits: 64 on amd64 and arm64, 32 on 386 and
    arm. *)
Variable intSize : Z.

(** The bytes [crypto/rand] delivers, in the order they are read. *)
Variable src : nat -> ascii.

(** A computation that reads random bytes from a cursor on and may panic
    ([None]). *)
Definition Gen (A : Type) : Type := nat -> option (A * nat).

Definition retG {A} (a : A) : Gen A := fun pos => Some (a, pos).

Definition bindG {A B} (c : Gen A) (k : A -> Gen B) : Gen B :=
  fun pos =>
    match c pos with
    | Some (a, pos') => k a pos'
    | None => None
    end.

Definition panicG {A} : Gen A := fun _ => None.

(** A value converted to [int], and an [int] result of arithmetic: reduced
    to [intSize] bits, two's complement. *)
Definition wrapInt (z : Z) : Z :=
  ((z + 2 ^ (intSize - 1)) mod 2 ^ intSize - 2 ^ (intSize - 1))%Z.

Definition byteVal (c : ascii) : Z := Z.of_N (N_of_ascii c).

Definition randInt (n : Z) : Gen Z :=
  fun pos =>
    if (n <=? 0)%Z then Some (0%Z, pos)
    else
      let x i := byteVal (src (pos + i)) in
      let u := Z.lor (Z.lor (Z.lor (x 0) (Z.shiftl (x 1) 8))
                            (Z.shiftl (x 2) 16))
                     (Z.shiftl (x 3) 24) in
      let v := wrapInt u in
      let v := if (v <? 0)%Z then wrapInt (- v) else v in
      Some (Z.rem v n, pos + 4).

Definition lower : string := "abcdefghijklmnopqrstuvwxyz".
Definition upper : string := "ABCDEFGHIJKLMNOPQRSTUVWXYZ".
Definition digs : string := "0123456789".
Definition spec : string := "!@#$%^&*()-_=+[]{};:,.<>?".
Definition all : string := (lower ++ upper ++ digs ++ spec)%string.

(** [s[i]] for an [int] index: out of range is a run-time panic. *)
Definition index (s : string) (i : Z) : Gen ascii :=
  if (i <? 0)%Z then panicG
  else match String.get (Z.to_nat i) s with
       | Some c => retG c
       | None => panicG
       end.

(** [alphabet[randInt(len(alphabet))]] *)
Definition pick (alphabet : string) : Gen ascii :=
  bindG (randInt (Z.of_nat (String.length alphabet))) (index alphabet).

(** [for len(b) < 8 { b = append(b, all[randInt(len(all))]) }], as the
    [8 - len(b)] iterations it makes. *)
Fixpoint fill (n : nat) (b : list ascii) : Gen (list ascii) :=
  match n with
  | O => retG b
  | S n' => bindG (pick all) (fun c => fill n' (b ++ [c]))
  end.

Fixpoint setNth {A} (i : nat) (x : A) (l : list A) : list A :=
  match l, i with
  | [], _ => []
  | _ :: l', O => x :: l'
  | y :: l', S i' => y :: setNth i' x l'
  end.

(** [b[i], b[j] = b[j], b[i]] *)
Definition swap (b : list ascii) (i : nat) (j : Z) : Gen (list ascii) :=
  if (j <? 0)%Z then panicG
  else match nth_error b i, nth_error b (Z.to_nat j) with
       | Some x, Some y => retG (setNth (Z.to_nat j) x (setNth i y b))
       | _, _ => panicG
       end.

(** [for i := ...; i > 0; i-- { j := randInt(i + 1); swap }], from [i]
    down to 1. *)
Fixpoint shuffle (i : nat) (b : list ascii) : Gen (list ascii) :=
  match i with
  | O => retG b
  | S i' =>
      bindG (randInt (Z.of_nat i + 1)) (fun j =>
      bindG (swap b i j) (fun b' => shuffle i' b'))
  end.

Definition genPassword8 : Gen string :=
  bindG (pick lower) (fun l =>
  bindG (pick upper) (fun u =>
  bindG (pick digs) (fun d =>
  bindG (pick spec) (fun s =>
  let b := [l; u; d; s] in
  bindG (fill (8 - List.length b) b) (fun b =>
  bindG (shuffle (List.length b - 1) b) (fun b =>
  retG (string_of_list_ascii b))))))).

End Password.

(** ** Note encryption: AES-GCM framing *)

(** The errors of [encryptAESGCM] and [decryptAESGCM]. *)
Inductive cryptoError : Set :=
| KeySizeError (n : nat)      (* aes.NewCipher: crypto/aes: invalid key size n *)
| RandError                   (* the error of rand.Read *)
| ciphertext_too_short        (* errors.New("ciphertext too short") *)
| OpenError.                  (* the error of gcm.Open *)

Section AESGCM.

(** [gcm.Seal(nil, nonce, plaintext, nil)] and
    [gcm.Open(nil, nonce, ciphertext, nil)] for the AES-GCM instance made
    from a key, as functions of key, nonce and text. *)
Variable Seal : list ascii -> list ascii -> list ascii -> list ascii.
Variable Open : list ascii -> list ascii -> list ascii -> option (list ascii).

(** [aes.NewCipher] accepts keys of 16, 24 and 32 bytes. *)
Definition validKeySize (key : list ascii) : bool :=
  let n := List.length key in
  Nat.eqb n 16 || Nat.eqb n 24 || Nat.eqb n 32.

(** [gcm.NonceSize()] of the standard GCM. *)
Definition NonceSize : nat := 12.

(** [encryptAESGCM]; [random] is what [rand.Read(nonce)] leaves in the
    nonce buffer, or [None] when it returns an error. *)
Definition encryptAESGCM (key plaintext : list ascii)
  (random : option (list ascii)) : list ascii + cryptoError :=
  if negb (validKeySize key) then inr (KeySizeError (List.length key))
  else
    match random with
    | None => inr RandError
    | Some nonce =>
        let ct := Seal key nonce plaintext in
        inl (nonce ++ ct)
    end.

Definition decryptAESGCM (key data : list ascii) : list ascii + cryptoError :=
  if negb (validKeySize key) then inr (KeySizeError (List.length key))
  else
    let ns := NonceSize in
    if Nat.ltb (List.length data) ns then inr ciphertext_too_short
    else
      let nonce := firstn ns data in
      let ct := skipn ns data in
      match Open key nonce ct with
      | Some plaintext => inl plaintext
      | None => inr OpenError
      end.

End AESGCM.

(** ** The message handler *)

Definition btnCalc : string := "🧮 Калькулятор".

Definition btnPass : string := "🔐 Генератор паролей".

Definition btnNotes : string := "📝 Заметки".

Definition btnCreate : string := "➕ Создать".

Definition btnCancel : string := "🫩 Отмена".

Definition btnRead : string := "📚 Прочитать".

Inductive Mode : Set := ModeNone | ModeCalcAwaitExpr | ModeNoteAwaitContent.

Record NotePayload : Set := mkNotePayload {
  Kind : string;
  NoteText : string;   (* Text *)
  FileID : string;
  NoteCaption : string (* Caption *)
}.

(** What the handler reads of a [tgbotapi.Message]: the sender and the
    chat, the text and the caption, the file id of the voice message if
    there is one, the file ids of the photo sizes, and whether the message
    is the command [start] ([m.IsCommand() && m.Command() == "start"],
    which the library computes). *)
Record Message : Set := mkMessage {
  From_ID : Z;
  Chat_ID : Z;
  Text : string;
  Caption : string;
  Voice : option string;
  Photo : list string;
  IsStart : bool
}.

(** The reply markup of a sent message: none, the main keyboard [kb], or
    an inline keyboard of (label, data) buttons. *)
Inductive markup : Set :=
| NoMarkup
| MainKeyboard
| InlineKeyboard (rows : list (list (string * string))).

(** A message handed to [bot.Send]. *)
Record outgoing : Set := mkOutgoing {
  to : Z;
  body : string;
  parse_mode : string;
  reply_markup : markup
}.

(** [states]: the mode of each user that has an entry. *)
Definition States : Type := Z -> option Mode.

Definition setMode (states : States) (user : Z) (mode : Mode) : States :=
  fun u => if Z.eqb u user then Some mode else states u.

Section Handler.

(** [strings.TrimSpace] *)
Variable TrimSpace : string -> string.

Variable intSize : Z.
Variable src : nat -> ascii.

Definition messageToPayload (m : Message) : option NotePayload :=
  match Voice m with
  | Some fileID =>
      Some (mkNotePayload "voice" EmptyString fileID EmptyString)
  | None =>
      if Nat.ltb 0 (List.length (Photo m)) then
        match nth_error (Photo m) (List.length (Photo m) - 1) with
        | Some best =>
            Some (mkNotePayload "photo" EmptyString best (Caption m))
        | None => None
        end
      else if negb (String.eqb (TrimSpace (Text m)) EmptyString)
      then Some (mkNotePayload "text" (Text m) EmptyString EmptyString)
      else None
  end.

Definition notesMenu : markup :=
  InlineKeyboard [[(btnCreate, "notes:create"); (btnRead, "notes:read");
                   (btnCancel, "notes:cancel")]].

Definition txtGreeting : string := "Привет! Выбирай действие кнопками снизу.".
Definition txtAskExpr : string := "Введи выражение (например: 2*(3+4)/5).".
Definition txtNotes : string := "Заметки: выбери действие.".
Definition txtEmpty : string := "Пусто. Введи выражение текстом.".
Definition txtNeedContent : string := "Пришли текст, фото или голосовое.".
Definition txtSaved : string :=
  "✅ Сохранено. Хочешь ещё — снова нажми «Заметки».".
Definition txtFallback : string := "Выбирай действие кнопками снизу.".

(** [handleMessage].  [saved] is the outcome of [saveNote] should the
    handler call it: [None] for success, the message of the error
    otherwise.  The result is the new [states] and the messages sent;
    [bot.Send]'s own results are dropped by the code. *)
Definition handleMessage (states : States) (m : Message)
  (saved : option string) : Gen (States * list outgoing) :=
  let userID := From_ID m in
  let chat := Chat_ID m in
  let mode :=
    match states userID with
    | Some mode => mode
    | None => ModeNone
    end in
  let states := setMode states userID mode in
  if IsStart m then
    retG (setMode states userID ModeNone,
          [mkOutgoing chat txtGreeting EmptyString MainKeyboard])
  else if String.eqb (TrimSpace (Text m)) btnCalc then
    retG (setMode states userID ModeCalcAwaitExpr,
          [mkOutgoing chat txtAskExpr EmptyString MainKeyboard])
  else if String.eqb (TrimSpace (Text m)) btnPass then
    bindG (genPassword8 intSize src) (fun pass =>
    retG (setMode states userID ModeNone,
          [mkOutgoing chat ("Твой пароль: `" ++ pass ++ "`")%string
                      "Markdown" MainKeyboard]))
  else if String.eqb (TrimSpace (Text m)) btnNotes then
    retG (setMode states userID ModeNone,
          [mkOutgoing chat txtNotes EmptyString notesMenu])
  else
    match mode with
    | ModeCalcAwaitExpr =>
        let expr := TrimSpace (Text m) in
        if String.eqb expr EmptyString then
          retG (states, [mkOutgoing chat txtEmpty EmptyString NoMarkup])
        else
          match evalExpr expr with
          | Err e =>
              retG (states,
                    [mkOutgoing chat ("Ошибка: " ++ Error e)%string
                                EmptyString NoMarkup])
          | Ok v =>
              retG (setMode states userID ModeNone,
                    [mkOutgoing chat ("= " ++ trimFloat v)%string
                                EmptyString MainKeyboard])
          end
    | ModeNoteAwaitContent =>
        match messageToPayload m with
        | None =>
            retG (states,
                  [mkOutgoing chat txtNeedContent EmptyString NoMarkup])
        | Some payload =>
            match saved with
            | Some msg =>
                retG (states,
                      [mkOutgoing chat ("Не смог сохранить: " ++ msg)%string
                                  EmptyString NoMarkup])
            | None =>
                retG (setMode states userID ModeNone,
                      [mkOutgoing chat txtSaved EmptyString MainKeyboard])
            end
        end
    | ModeNone =>
        retG (states, [mkOutgoing chat txtFallback EmptyString MainKeyboard])
    end.

(** The loop of [main] over message updates, from a given [states]; each
    message comes with the outcome [saveNote] would have. *)
Fixpoint handleAll (states : States) (msgs : list (Message * option string))
  : Gen (States * list outgoing) :=
  match msgs with
  | [] => retG (states, [])
  | (m, saved) :: rest =>
      bindG (handleMessage states m saved) (fun r1 =>
      bindG (handleAll (fst r1) rest) (fun r2 =>
      retG (fst r2, snd r1 ++ snd r2)))
  end.

End Handler.

(** * The vocabulary of the properties

    Predicates and functions that the statements below use to say what the
    code does; none of them is part of the program. *)

(** ** Tokens and strings *)

Abbreviation Num s := (mkToken tNumber s).
Abbreviation Op s := (mkToken tOp s).
Abbreviation LParen := (mkToken tLParen "(").
Abbreviation RParen := (mkToken tRParen ")").

(** The horizontal tab, byte 9. *)
Definition tab : ascii := ascii_of_nat 9.

(** [occurs c s]: the byte [c] is one of the bytes of [s]. *)
Fixpoint occurs (c : ascii) (s : string) : bool :=
  match s with
  | EmptyString => false
  | String d s' => Ascii.eqb c d || occurs c s'
  end.

(** Every byte of [s] is a digit or a point. *)
Fixpoint allNumChars (s : string) : bool :=
  match s with
  | EmptyString => true
  | String c s' => isNumChar c && allNumChars s'
  end.

(** The bytes the scanner accepts. *)
Definition accepted (c : ascii) : bool :=
  isNumChar c || isOpChar c || Ascii.eqb c "(" || Ascii.eqb c ")".

(** The shape of a token the scanner builds. *)
Definition tokenOk (t : token) : bool :=
  match typ t with
  | tNumber =>
      match val t with
      | EmptyString => false
      | String _ _ => allNumChars (val t)
      end
  | tOp =>
      String.eqb (val t) "+" || String.eqb (val t) "-" ||
      String.eqb (val t) "*" || String.eqb (val t) "/"
  | tLParen => String.eqb (val t) "("
  | tRParen => String.eqb (val t) ")"
  end.

Definition allBytes : list ascii := List.map ascii_of_nat (seq 0 256).

(** ** The unary-minus rewrite, as the specification words it *)

(** [insertZeros prev toks]: before each [-] operator that has no token
    before it ([prev = None]) or comes right after an operator or a left
    parenthesis, a [Number "0"] is inserted; every token is kept. *)
Definition unaryPosition (prev : option token) : bool :=
  match prev with
  | None => true
  | Some p => tokType_eqb (typ p) tOp || tokType_eqb (typ p) tLParen
  end.

Fixpoint insertZeros (prev : option token) (toks : list token) : list token :=
  match toks with
  | [] => []
  | t :: toks' =>
      (if isMinus t && unaryPosition prev then [zeroToken; t] else [t])
      ++ insertZeros (Some t) toks'
  end.

(** ** The parser's stack and output *)

Definition isLParen (t : token) : bool := tokType_eqb (typ t) tLParen.

Definition isParen (t : token) : bool :=
  tokType_eqb (typ t) tLParen || tokType_eqb (typ t) tRParen.

(** What may stand in the output, and what may wait on the stack. *)
Definition numOrOp (t : token) : bool :=
  match typ t with tNumber | tOp => true | _ => false end.

Definition opOrLParen (t : token) : bool :=
  match typ t with tOp | tLParen => true | _ => false end.

Definition syInv (st : syState) : Prop :=
  Forall (fun t => numOrOp t = true) (sy_out st) /\
  Forall (fun t => opOrLParen t = true) (sy_stack st).

(** [popsBefore t top]: the operator [top] on the stack goes to the output
    before the incoming operator [t] is pushed. *)
Definition popsBefore (t top : token) : bool :=
  tokType_eqb (typ top) tOp && (prec (val t) <=? prec (val top))%Z.

Fixpoint takeWhile {A} (f : A -> bool) (l : list A) : list A :=
  match l with
  | [] => []
  | x :: l' => if f x then x :: takeWhile f l' else []
  end.

Fixpoint dropWhile {A} (f : A -> bool) (l : list A) : list A :=
  match l with
  | [] => []
  | x :: l' => if f x then dropWhile f l' else l
  end.

(** Parentheses are balanced from nesting depth [depth] on. *)
Fixpoint balanced (depth : nat) (toks : list token) : bool :=
  match toks with
  | [] => Nat.eqb depth 0
  | t :: toks' =>
      match typ t with
      | tLParen => balanced (S depth) toks'
      | tRParen =>
          match depth with
          | O => false
          | S d => balanced d toks'
          end
      | _ => balanced depth toks'
      end
  end.

(** The left parentheses waiting on the stack. *)
Definition openParens (stack : list token) : nat :=
  List.length (filter isLParen stack).

(** A right parenthesis is reached, after the tokens before it were read
    without failure, when the stack holds no left parenthesis: the
    [tRParen] loop then empties the stack without finding one. *)
Definition rparenUnmatched (toks : list token) : Prop :=
  exists pre t post st,
    toks = pre ++ t :: post /\ typ t = tRParen /\
    syLoop pre syInit = Ok st /\ existsb isLParen (sy_stack st) = false.

(** All tokens are read without failure and a parenthesis is left on the
    stack. *)
Definition parenLeftOnStack (toks : list token) : Prop :=
  exists st,
    syLoop toks syInit = Ok st /\ existsb isParen (sy_stack st) = true.

(** ** Further vocabulary *)

(** The first byte of [s] that the scanner does not accept. *)
Fixpoint firstBad (s : string) : option ascii :=
  match s with
  | EmptyString => None
  | String c s' => if accepted c then firstBad s' else Some c
  end.

(** The text the tokens spell: their [val]s in order. *)
Fixpoint spell (toks : list token) : string :=
  match toks with
  | [] => EmptyString
  | t :: toks' => (val t ++ spell toks')%string
  end.

(** A [-] operator with nothing, an operator or a left parenthesis before
    it. *)
Fixpoint hasUnaryMinus (prev : option token) (toks : list token) : bool :=
  match toks with
  | [] => false
  | t :: toks' =>
      (isMinus t && unaryPosition prev) || hasUnaryMinus (Some t) toks'
  end.

Definition notParen (t : token) : bool := negb (isParen t).

Definition isNumber (t : token) : bool := tokType_eqb (typ t) tNumber.

Definition isOperator (t : token) : bool := tokType_eqb (typ t) tOp.

(** ** Infix expressions

    Expressions as the usual grammar reads them: a sum is a chain of terms
    under [+] and [-], a term a chain of atoms under [*] and [/], both
    nested to the left, and an atom is a number or a sum in parentheses.  A
    sum may begin with a minus sign. *)

Inductive addop : Set := OpAdd | OpSub.

Inductive mulop : Set := OpMul | OpDiv.

Definition addopText (o : addop) : string :=
  match o with OpAdd => "+" | OpSub => "-" end.

Definition mulopText (o : mulop) : string :=
  match o with OpMul => "*" | OpDiv => "/" end.

Inductive atom : Set :=
| ANum (text : string)
| AParen (e : sum)
with term : Set :=
| TAtom (a : atom)
| TMul (t : term) (o : mulop) (a : atom)
with sum : Set :=
| STerm (t : term)
| SNeg (t : term)
| SAdd (s : sum) (o : addop) (t : term).

Scheme atom_mut := Induction for atom Sort Prop
  with term_mut := Induction for term Sort Prop
  with sum_mut := Induction for sum Sort Prop.

Combined Scheme expr_mutind from atom_mut, term_mut, sum_mut.

(** The tokens of an expression, in infix order. *)
Fixpoint atomTokens (a : atom) : list token :=
  match a with
  | ANum text => [Num text]
  | AParen e => LParen :: sumTokens e ++ [RParen]
  end
with termTokens (t : term) : list token :=
  match t with
  | TAtom a => atomTokens a
  | TMul t o a => termTokens t ++ Op (mulopText o) :: atomTokens a
  end
with sumTokens (s : sum) : list token :=
  match s with
  | STerm t => termTokens t
  | SNeg t => Op "-" :: termTokens t
  | SAdd s o t => sumTokens s ++ Op (addopText o) :: termTokens t
  end.

(** The tokens with a [Number "0"] before each leading minus sign. *)
Fixpoint atomRewritten (a : atom) : list token :=
  match a with
  | ANum text => [Num text]
  | AParen e => LParen :: sumRewritten e ++ [RParen]
  end
with termRewritten (t : term) : list token :=
  match t with
  | TAtom a => atomRewritten a
  | TMul t o a => termRewritten t ++ Op (mulopText o) :: atomRewritten a
  end
with sumRewritten (s : sum) : list token :=
  match s with
  | STerm t => termRewritten t
  | SNeg t => Num "0" :: Op "-" :: termRewritten t
  | SAdd s o t => sumRewritten s ++ Op (addopText o) :: termRewritten t
  end.

(** The same expression in postfix order. *)
Fixpoint atomPostfix (a : atom) : list token :=
  match a with
  | ANum text => [Num text]
  | AParen e => sumPostfix e
  end
with termPostfix (t : term) : list token :=
  match t with
  | TAtom a => atomPostfix a
  | TMul t o a => termPostfix t ++ atomPostfix a ++ [Op (mulopText o)]
  end
with sumPostfix (s : sum) : list token :=
  match s with
  | STerm t => termPostfix t
  | SNeg t => Num "0" :: termPostfix t ++ [Op "-"]
  | SAdd s o t => sumPostfix s ++ termPostfix t ++ [Op (addopText o)]
  end.

Section Value.

Variable ParseFloat : string -> option float.

(** The value of an expression: operands left to right, then the
    operation, with the evaluator's errors.  A leading minus sign
    subtracts from the value of the text [0]. *)
Definition zeroValue : result float :=
  match ParseFloat "0" with
  | Some v => Ok v
  | None => Err bad_number
  end.

Fixpoint atomValue (a : atom) : result float :=
  match a with
  | ANum text =>
      match ParseFloat text with
      | Some v => Ok v
      | None => Err bad_number
      end
  | AParen e => sumValue e
  end
with termValue (t : term) : result float :=
  match t with
  | TAtom a => atomValue a
  | TMul t o a =>
      x <- termValue t ;; y <- atomValue a ;; applyOp (mulopText o) x y
  end
with sumValue (s : sum) : result float :=
  match s with
  | STerm t => termValue t
  | SNeg t => x <- zeroValue ;; y <- termValue t ;; applyOp "-" x y
  | SAdd s o t =>
      x <- sumValue s ;; y <- termValue t ;; applyOp (addopText o) x y
  end.

End Value.

(** Every number of the expression is a non-empty run of digits and
    points. *)
Definition numberText (text : string) : bool :=
  match text with
  | EmptyString => false
  | String _ _ => allNumChars text
  end.

Fixpoint atomNumbersOk (a : atom) : bool :=
  match a with
  | ANum text => numberText text
  | AParen e => sumNumbersOk e
  end
with termNumbersOk (t : term) : bool :=
  match t with
  | TAtom a => atomNumbersOk a
  | TMul t _ a => termNumbersOk t && atomNumbersOk a
  end
with sumNumbersOk (s : sum) : bool :=
  match s with
  | STerm t => termNumbersOk t
  | SNeg t => termNumbersOk t
  | SAdd s _ t => sumNumbersOk s && termNumbersOk t
  end.

(** *** The parser on expressions *)

(** What is in the output and what waits on the stack when the tokens of
    a term or of a sum have been read. *)
Definition termPending (t : term) : list token :=
  match t with
  | TAtom _ => []
  | TMul _ o _ => [Op (mulopText o)]
  end.

Definition termEmitted (t : term) : list token :=
  match t with
  | TAtom a => atomPostfix a
  | TMul t _ a => termPostfix t ++ atomPostfix a
  end.

Definition sumPending (s : sum) : list token :=
  match s with
  | STerm t => termPending t
  | SNeg t => termPending t ++ [Op "-"]
  | SAdd _ o t => termPending t ++ [Op (addopText o)]
  end.

Definition sumEmitted (s : sum) : list token :=
  match s with
  | STerm t => termEmitted t
  | SNeg t => Num "0" :: termEmitted t
  | SAdd s _ t => sumPostfix s ++ termEmitted t
  end.

(** The stack below a term: its top is not popped by [*] or [/]. *)
Definition termBase (B : list token) : Prop :=
  match B with
  | [] => True
  | x :: _ => tokType_eqb (typ x) tOp && (2 <=? prec (val x))%Z = false
  end.

(** The stack below a sum: empty, or a left parenthesis on top. *)
Definition sumBase (B : list token) : Prop :=
  match B with
  | [] => True
  | x :: _ => typ x = tLParen
  end.

(** *** The tokenizer on the text of an expression *)

(** After a number comes the end of the text or a byte that is not part of
    a number. *)
Definition numberEnds (rest : string) : bool :=
  match rest with
  | EmptyString => true
  | String c _ => negb (isNumChar c)
  end.

(** [-2*(3-5)] *)
Definition exampleSum : sum :=
  SNeg (TMul (TAtom (ANum "2")) OpMul
             (AParen (SAdd (STerm (TAtom (ANum "3"))) OpSub (TAtom (ANum "5"))))).

(** ** Passwords, ciphers and handler states *)

(** The password holds a byte of the alphabet. *)
Definition hasFrom (alphabet pw : string) : Prop :=
  exists c, occurs c alphabet = true /\ occurs c pw = true.

(** A source of bytes for the examples. *)
Definition exampleSource : nat -> ascii := fun n => ascii_of_nat (n * 37 + 11).

(** A stand-in for the cipher: the sealed text is the plain text. *)
Definition plainSeal (k n p : list ascii) : list ascii := p.

Definition plainOpen (k n c : list ascii) : option (list ascii) := Some c.

Definition exampleKey : list ascii := repeat Ascii.zero 32.

Definition exampleNonce : list ascii := repeat Ascii.zero 12.

(** No user is waiting for the content of a note. *)
Definition noteFree (states : States) : Prop :=
  forall u, states u <> Some ModeNoteAwaitContent.

(** [states := map[int64]*UserState{}] *)
Definition noStates : States := fun _ => None.

Definition exampleMessage (text : string) : Message :=
  mkMessage 7 7 text EmptyString None [] false.

Definition exampleMessages : list (Message * option string) :=
  [ (mkMessage 7 7 "/start" EmptyString None [] true, None);
    (exampleMessage btnNotes, None);
    (exampleMessage "buy milk", None);
    (exampleMessage btnCalc, Some "disk full");
    (exampleMessage "2*(3+4)/5", None);
    (exampleMessage btnPass, None) ].

(** ** The failure kinds of the specification *)

(** The kinds of the error taxonomy. *)
Inductive failure : Set :=
| EmptyExpression
| UnexpectedCharacter (c : ascii)
| MismatchedParentheses
| InvalidNumber
| InsufficientOperands
| DivisionByZero
| MalformedExpression
| InvalidResult.

(** The error that stands for a kind. *)
Definition errorOf (k : failure) : error :=
  match k with
  | EmptyExpression => empty_expression
  | UnexpectedCharacter c => bad_char c
  | MismatchedParentheses => mismatched_parentheses
  | InvalidNumber => bad_number
  | InsufficientOperands => bad_expression
  | DivisionByZero => division_by_zero
  | MalformedExpression => bad_expression
  | InvalidResult => bad_result
  end.

(** The two kinds are InsufficientOperands and MalformedExpression, in
    either order. *)
Definition operandsOrMalformed (k1 k2 : failure) : Prop :=
  (k1 = InsufficientOperands /\ k2 = MalformedExpression) \/
  (k1 = MalformedExpression /\ k2 = InsufficientOperands).

Section Triggers.

Variable ParseFloat : string -> option float.

(** The trigger of a kind at a token of the postfix sequence, met with
    the operand stack [st]: a number whose text does not parse, an operator
    with fewer than two values on the stack, a division whose right-hand
    operand (the top of the stack) is zero. *)
Definition stepFails (k : failure) (st : list float) (t : token) : Prop :=
  match k with
  | InvalidNumber => typ t = tNumber /\ ParseFloat (val t) = None
  | InsufficientOperands => typ t = tOp /\ List.length st < 2
  | DivisionByZero =>
      typ t = tOp /\ val t = "/" /\
      exists b a st', st = b :: a :: st' /\ (b =? 0)%float = true
  | _ => False
  end.

(** The trigger of a kind on the stack left when the whole sequence has
    been evaluated: a number of values other than one, or one value that
    is infinite or not a number. *)
Definition finishFails (k : failure) (st : list float) : Prop :=
  match k with
  | MalformedExpression => List.length st <> 1
  | InvalidResult =>
      exists v, st = [v] /\ is_infinity v || is_nan v = true
  | _ => False
  end.

(** The postfix sequence [rpn] fails with kind [k]: at a token, the
    tokens before it evaluated without failure, or at the end. *)
Definition evaluatorFails (k : failure) (rpn : list token) : Prop :=
  (exists pre t post st,
     rpn = pre ++ t :: post /\ rpnLoop ParseFloat pre [] = Ok st /\
     stepFails k st t) \/
  (exists st, rpnLoop ParseFloat rpn [] = Ok st /\ finishFails k st).

End Triggers.

(** The input [s] fails with kind [k], each kind by its trigger: nothing
    left once the spaces are removed; a first byte that is not accepted;
    tokens whose parentheses are not balanced; a postfix sequence on which
    the evaluator fails. *)
Definition fails (s : string) (k : failure) : Prop :=
  match k with
  | EmptyExpression => removeSpaces s = EmptyString
  | UnexpectedCharacter c => firstBad (removeSpaces s) = Some c
  | MismatchedParentheses =>
      exists toks, tokenize s = Ok toks /\ balanced 0 toks = false
  | _ =>
      exists toks rpn,
        tokenize s = Ok toks /\ shuntingYard toks = Ok rpn /\
        evaluatorFails strconv.ParseFloat k rpn
  end.

(** * Properties *)

(** ** Results *)

Lemma bind_Ok {A B} (r : result A) (k : A -> result B) (b : B) :
  bind r k = Ok b -> exists a, r = Ok a /\ k a = Ok b.
Proof. destruct r as [a|e]; simpl; [eauto | discriminate]. Qed.

Lemma bind_Err {A B} (r : result A) (k : A -> result B) (e : error) :
  bind r k = Err e -> r = Err e \/ exists a, r = Ok a /\ k a = Err e.
Proof. destruct r as [a|e']; simpl; [eauto | intros [= ->]; auto]. Qed.

Lemma tokType_eqb_eq a b : tokType_eqb a b = true <-> a = b.
Proof. destruct a, b; simpl; split; congruence. Qed.

Lemma scanNumber_length s :
  String.length (snd (scanNumber s)) <= String.length s.
Proof.
  induction s as [|c s IH]; simpl; [lia|].
  destruct (isNumChar c); simpl; [|lia].
  destruct (scanNumber s); simpl in *; lia.
Qed.

(** ** The tokenizer *)

Lemma removeSpaces_no_space s : occurs " " (removeSpaces s) = false.
Proof.
  induction s as [|c s IH]; cbn [occurs removeSpaces]; [reflexivity|].
  destruct (Ascii.eqb c " ") eqn:E; [exact IH|].
  cbn [occurs]. rewrite Ascii.eqb_sym, E. exact IH.
Qed.

Lemma removeSpaces_fixed s : occurs " " s = false -> removeSpaces s = s.
Proof.
  induction s as [|c s IH]; cbn [occurs removeSpaces]; [reflexivity|].
  rewrite Ascii.eqb_sym. destruct (Ascii.eqb c " "); cbn [orb]; [discriminate|].
  intros H. now rewrite IH.
Qed.

Lemma removeSpaces_idempotent s : removeSpaces (removeSpaces s) = removeSpaces s.
Proof. apply removeSpaces_fixed, removeSpaces_no_space. Qed.

Lemma removeSpaces_app s1 s2 :
  removeSpaces (s1 ++ s2) = (removeSpaces s1 ++ removeSpaces s2)%string.
Proof.
  induction s1 as [|c s1 IH]; simpl; [reflexivity|].
  destruct (Ascii.eqb c " "); simpl; now rewrite IH.
Qed.

Lemma scanNumber_occurs c s :
  occurs c (snd (scanNumber s)) = true -> occurs c s = true.
Proof.
  induction s as [|d s IH]; simpl; [discriminate|].
  destruct (isNumChar d); simpl; [|auto].
  destruct (scanNumber s) as [run rest]; simpl in *.
  intros H. rewrite (IH H). apply orb_true_r.
Qed.

Lemma scanNumber_all s :
  allNumChars s = true -> scanNumber s = (s, EmptyString).
Proof.
  induction s as [|c s IH]; simpl; [reflexivity|].
  destruct (isNumChar c); simpl; [|discriminate].
  intros H. now rewrite (IH H).
Qed.

Lemma scanNumber_run s : allNumChars (fst (scanNumber s)) = true.
Proof.
  induction s as [|c s IH]; simpl; [reflexivity|].
  destruct (isNumChar c) eqn:E; simpl; [|reflexivity].
  destruct (scanNumber s) as [run rest]; simpl in *. now rewrite E.
Qed.

(** The scanning loop fails only with [bad_char c], where [c] is a byte of
    the string that is not accepted. *)
Lemma scan_Err s : forall out e,
  scan s out = Err e ->
  exists c, e = bad_char c /\ occurs c s = true /\ accepted c = false.
Proof.
  remember (String.length s) as n eqn:Hn.
  revert s Hn. induction n as [n IH] using lt_wf_ind. intros s Hn out e.
  destruct s as [|c s']; simp scan; [discriminate|].
  assert (Hrec : forall r out', String.length r < n ->
            scan r out' = Err e ->
            exists c0, e = bad_char c0 /\ occurs c0 r = true /\ accepted c0 = false).
  { intros r out' Hr. exact (IH _ Hr r eq_refl out' e). }
  simpl in Hn. unfold accepted.
  destruct (isNumChar c) eqn:E1.
  { intros H. apply Hrec in H.
    - destruct H as (c0 & -> & Hocc & Hacc). exists c0. repeat split; auto.
      simpl. rewrite (scanNumber_occurs _ _ Hocc). apply orb_true_r.
    - pose proof (scanNumber_length s'). lia. }
  assert (Htail : forall out', scan s' out' = Err e ->
            exists c0, e = bad_char c0 /\ occurs c0 (String c s') = true /\
                       accepted c0 = false).
  { intros out' H. apply Hrec in H; [|lia].
    destruct H as (c0 & -> & Hocc & Hacc). exists c0. repeat split; auto.
    simpl. rewrite Hocc. apply orb_true_r. }
  destruct (isOpChar c) eqn:E2; [apply Htail|].
  destruct (Ascii.eqb c "(") eqn:E3; [apply Htail|].
  destruct (Ascii.eqb c ")") eqn:E4; [apply Htail|].
  intros [= <-]. exists c. simpl. rewrite Ascii.eqb_refl.
  unfold accepted. rewrite E1, E2, E3, E4. auto.
Qed.

Lemma isOpChar_tokenOk c :
  isOpChar c = true -> tokenOk (mkToken tOp (String c EmptyString)) = true.
Proof.
  unfold isOpChar, tokenOk. cbn [typ val].
  intros H. repeat (apply orb_prop in H; destruct H as [H|H]);
    apply Ascii.eqb_eq in H; subst c; reflexivity.
Qed.

Lemma scan_tokens s out toks :
  scan s out = Ok toks ->
  Forall (fun t => tokenOk t = true) out ->
  Forall (fun t => tokenOk t = true) toks.
Proof.
  revert toks. funelim (scan s out); intros toks.
  - intros [= <-]. auto.
  - intros Hs Hout0.
    assert (Hstep : forall t, tokenOk t = true ->
              Forall (fun t => tokenOk t = true) (out ++ [t])).
    { intros t Ht. apply Forall_app. split; [assumption|]. constructor; auto. }
    destruct (isNumChar c) eqn:E1.
    { apply (H _ Hs). apply Hstep.
      unfold tokenOk. cbn [typ val allNumChars].
      now rewrite E1, scanNumber_run. }
    destruct (isOpChar c) eqn:E2.
    { apply (H0 _ Hs). apply Hstep. now apply isOpChar_tokenOk. }
    destruct (Ascii.eqb c "(") eqn:E3; [apply (H1 _ Hs); now apply Hstep|].
    destruct (Ascii.eqb c ")") eqn:E4; [apply (H2 _ Hs); now apply Hstep|].
    discriminate.
Qed.

Lemma rewriteBody_at pre t suf acc :
  rewriteBody (pre ++ t :: suf) acc (List.length pre) =
  acc ++ (if isMinus t && unaryPosition (nth_error pre (List.length pre - 1))
          then [zeroToken; t] else [t]).
Proof.
  unfold rewriteBody, prevIsOpOrLParen.
  rewrite nth_error_app2, Nat.sub_diag by lia. cbn [nth_error].
  assert (Hc : Nat.eqb (List.length pre) 0 ||
               match nth_error (pre ++ t :: suf) (List.length pre - 1) with
               | Some p => tokType_eqb (typ p) tOp || tokType_eqb (typ p) tLParen
               | None => false
               end = unaryPosition (nth_error pre (List.length pre - 1))).
  { destruct pre as [|p pre]; [reflexivity|].
    cbn [List.length Nat.eqb orb].
    rewrite nth_error_app1 by (cbn [List.length]; lia).
    destruct (nth_error (p :: pre) (S (List.length pre) - 1)) eqn:E;
      [reflexivity|].
    apply nth_error_None in E. cbn [List.length] in E. lia. }
  rewrite Hc.
  destruct (isMinus t && unaryPosition _); cbv zeta;
    [now rewrite <- app_assoc | reflexivity].
Qed.

Lemma rewrite_fold suf : forall pre acc,
  fold_left (rewriteBody (pre ++ suf))
            (seq (List.length pre) (List.length suf)) acc =
  acc ++ insertZeros (nth_error pre (List.length pre - 1)) suf.
Proof.
  induction suf as [|t suf IH]; intros pre acc.
  - cbn. now rewrite app_nil_r.
  - cbn [List.length seq fold_left insertZeros].
    rewrite rewriteBody_at.
    replace (pre ++ t :: suf) with ((pre ++ [t]) ++ suf)
      by now rewrite <- app_assoc.
    replace (S (List.length pre)) with (List.length (pre ++ [t]))
      by (rewrite length_app; cbn; lia).
    rewrite IH.
    replace (nth_error (pre ++ [t]) (List.length (pre ++ [t]) - 1))
      with (Some t).
    + now rewrite <- app_assoc.
    + rewrite length_app. cbn [List.length].
      rewrite nth_error_app2 by lia.
      replace (List.length pre + 1 - 1 - List.length pre) with 0 by lia.
      reflexivity.
Qed.

(** The index loop of [rewriteUnaryMinus] computes [insertZeros]. *)
Lemma rewriteUnaryMinus_spec toks :
  rewriteUnaryMinus toks = insertZeros None toks.
Proof.
  unfold rewriteUnaryMinus. exact (rewrite_fold toks [] []).
Qed.

Lemma insertZeros_tokens prev toks :
  Forall (fun t => tokenOk t = true) toks ->
  Forall (fun t => tokenOk t = true) (insertZeros prev toks).
Proof.
  intros H. revert prev. induction H as [|t toks Ht _ IH]; intros prev.
  - constructor.
  - cbn [insertZeros]. apply Forall_app. split; [|apply IH].
    destruct (isMinus t && unaryPosition prev); repeat constructor; auto.
Qed.

(** What [tokenize] returns holds only well-shaped tokens: a number is a
    non-empty run of digits and points, an operator is one of [+ - * /]. *)
Lemma tokenize_tokens s toks :
  tokenize s = Ok toks -> Forall (fun t => tokenOk t = true) toks.
Proof.
  unfold tokenize.
  destruct (String.eqb (removeSpaces s) EmptyString); [discriminate|].
  intros H. apply bind_Ok in H. destruct H as (out & Hscan & [= <-]).
  rewrite rewriteUnaryMinus_spec. apply insertZeros_tokens.
  exact (scan_tokens _ _ _ Hscan (Forall_nil _)).
Qed.

Lemma tokenize_numbers s toks t :
  tokenize s = Ok toks -> In t toks -> typ t = tNumber ->
  allNumChars (val t) = true.
Proof.
  intros H Hin Ht. apply tokenize_tokens in H.
  rewrite Forall_forall in H. specialize (H t Hin).
  unfold tokenOk in H. rewrite Ht in H.
  destruct (val t); [discriminate | exact H].
Qed.

Lemma tokenize_Err s e :
  tokenize s = Err e ->
  e = empty_expression \/
  exists c, e = bad_char c /\ occurs c (removeSpaces s) = true /\
            accepted c = false.
Proof.
  unfold tokenize.
  destruct (String.eqb (removeSpaces s) EmptyString); [intros [= <-]; auto|].
  intros H. apply bind_Err in H. destruct H as [H | (out & _ & H)];
    [|discriminate].
  right. exact (scan_Err _ _ _ H).
Qed.

(** The scanner fails on the first byte it does not accept, and only
    there. *)
Lemma firstBad_scanNumber s : firstBad (snd (scanNumber s)) = firstBad s.
Proof.
  induction s as [|c s IH]; cbn [scanNumber]; [reflexivity|].
  destruct (isNumChar c) eqn:E.
  - destruct (scanNumber s) as [run rest]. cbn [snd firstBad] in *.
    unfold accepted. now rewrite E.
  - reflexivity.
Qed.

Lemma scan_firstBad_Some s out : forall c,
  firstBad s = Some c -> scan s out = Err (bad_char c).
Proof.
  funelim (scan s out); intros c0 Hc; cbn [firstBad] in Hc; [discriminate|].
  unfold accepted in Hc.
  destruct (isNumChar c) eqn:E1; cbn [orb] in Hc.
  { apply H. now rewrite firstBad_scanNumber. }
  destruct (isOpChar c) eqn:E2; cbn [orb] in Hc; [now apply H0|].
  destruct (Ascii.eqb c "(") eqn:E3; cbn [orb] in Hc; [now apply H1|].
  destruct (Ascii.eqb c ")") eqn:E4; [now apply H2|].
  congruence.
Qed.

Lemma scan_firstBad_None s out :
  firstBad s = None -> exists toks, scan s out = Ok toks.
Proof.
  funelim (scan s out); intros Hc; cbn [firstBad] in Hc; [eauto|].
  unfold accepted in Hc.
  destruct (isNumChar c) eqn:E1; cbn [orb] in Hc.
  { apply H. now rewrite firstBad_scanNumber. }
  destruct (isOpChar c) eqn:E2; cbn [orb] in Hc; [now apply H0|].
  destruct (Ascii.eqb c "(") eqn:E3; cbn [orb] in Hc; [now apply H1|].
  destruct (Ascii.eqb c ")") eqn:E4; [now apply H2|].
  discriminate.
Qed.

(** ** The shunting-yard parser *)

Lemma Forall_snoc {A} (P : A -> Prop) l x :
  Forall P l -> P x -> Forall P (l ++ [x]).
Proof. intros Hl Hx. apply Forall_app. split; [assumption | constructor; auto]. Qed.

Lemma popOps_inv t stack : forall out,
  Forall (fun t => numOrOp t = true) out ->
  Forall (fun t => opOrLParen t = true) stack ->
  Forall (fun t => numOrOp t = true) (snd (popOps t stack out)) /\
  Forall (fun t => opOrLParen t = true) (fst (popOps t stack out)).
Proof.
  induction stack as [|top stack IH]; intros out Hout Hst; cbn [popOps].
  - auto.
  - destruct (tokType_eqb (typ top) tOp) eqn:E; cbn [andb]; [|auto].
    destruct (prec (val t) <=? prec (val top))%Z; [|auto].
    inversion Hst; subst. apply IH; [|assumption].
    apply Forall_snoc; [assumption|].
    apply tokType_eqb_eq in E. unfold numOrOp. now rewrite E.
Qed.

Lemma popToLParen_inv stack : forall out,
  Forall (fun t => numOrOp t = true) out ->
  Forall (fun t => opOrLParen t = true) stack ->
  Forall (fun t => numOrOp t = true) (snd (popToLParen stack out)) /\
  Forall (fun t => opOrLParen t = true) (snd (fst (popToLParen stack out))).
Proof.
  induction stack as [|top stack IH]; intros out Hout Hst; cbn [popToLParen].
  - auto.
  - inversion Hst as [|? ? Htop Hrest]; subst.
    destruct (tokType_eqb (typ top) tLParen) eqn:E; [auto|].
    apply IH; [|assumption]. apply Forall_snoc; [assumption|].
    unfold opOrLParen in Htop. unfold numOrOp.
    destruct (typ top); try discriminate; reflexivity.
Qed.

(** [found] says whether the stack held a left parenthesis. *)
Lemma popToLParen_found stack : forall out,
  fst (fst (popToLParen stack out)) = existsb isLParen stack.
Proof.
  induction stack as [|top stack IH]; intros out; cbn [popToLParen existsb].
  - reflexivity.
  - unfold isLParen at 1.
    destruct (tokType_eqb (typ top) tLParen); [reflexivity | apply IH].
Qed.

Lemma syStep_inv st t st' :
  syStep st t = Ok st' -> syInv st -> syInv st'.
Proof.
  unfold syStep, syInv. intros H [Hout Hst].
  destruct (typ t) eqn:Et.
  - injection H as <-. cbn. split; [|assumption].
    apply Forall_snoc; [assumption|]. unfold numOrOp. now rewrite Et.
  - destruct (popOps_inv t _ _ Hout Hst) as [H1 H2].
    destruct (popOps t (sy_stack st) (sy_out st)) as [stack out].
    injection H as <-. cbn in *. split; [assumption|].
    constructor; [|assumption]. unfold opOrLParen. now rewrite Et.
  - injection H as <-. cbn. split; [assumption|].
    constructor; [|assumption]. unfold opOrLParen. now rewrite Et.
  - destruct (popToLParen_inv _ _ Hout Hst) as [H1 H2].
    destruct (popToLParen (sy_stack st) (sy_out st)) as [[found stack] out].
    destruct found; [|discriminate]. injection H as <-. cbn in *. auto.
Qed.

Lemma syLoop_inv toks : forall st st',
  syLoop toks st = Ok st' -> syInv st -> syInv st'.
Proof.
  induction toks as [|t toks IH]; intros st st' H Hinv; cbn [syLoop] in H.
  - now injection H as <-.
  - apply bind_Ok in H. destruct H as (st1 & Hstep & Hloop).
    eapply IH; [exact Hloop|]. eapply syStep_inv; eauto.
Qed.

Lemma drain_Ok stack : forall out o,
  drain stack out = Ok o ->
  Forall (fun t => numOrOp t = true) out ->
  Forall (fun t => numOrOp t = true) o.
Proof.
  induction stack as [|top stack IH]; intros out o H Hout; cbn [drain] in H.
  - now injection H as <-.
  - destruct (tokType_eqb (typ top) tLParen) eqn:E1; [discriminate|].
    destruct (tokType_eqb (typ top) tRParen) eqn:E2; [discriminate|].
    cbn [orb] in H. eapply IH; [exact H|].
    apply Forall_snoc; [assumption|]. unfold numOrOp.
    destruct (typ top); try discriminate; reflexivity.
Qed.

(** [drain] succeeds exactly on a stack without parentheses. *)
Lemma drain_result stack : forall out,
  drain stack out =
  if existsb isParen stack then Err mismatched_parentheses
  else Ok (out ++ stack).
Proof.
  induction stack as [|top stack IH]; intros out; cbn [drain existsb].
  - now rewrite app_nil_r.
  - unfold isParen at 1.
    destruct (tokType_eqb (typ top) tLParen || tokType_eqb (typ top) tRParen);
      [reflexivity|].
    cbn [orb]. rewrite IH. now rewrite <- app_assoc.
Qed.

(** A step fails only at a right parenthesis that finds no left one. *)
Lemma syStep_result_Err st t e :
  syStep st t = Err e <->
  e = mismatched_parentheses /\ typ t = tRParen /\
  existsb isLParen (sy_stack st) = false.
Proof.
  unfold syStep. destruct (typ t) eqn:Et.
  - split; [discriminate | intros (_ & [=] & _)].
  - destruct (popOps t (sy_stack st) (sy_out st)).
    split; [discriminate | intros (_ & [=] & _)].
  - split; [discriminate | intros (_ & [=] & _)].
  - rewrite <- (popToLParen_found (sy_stack st) (sy_out st)).
    destruct (popToLParen (sy_stack st) (sy_out st)) as [[found stack] out].
    cbn [fst]. destruct found.
    + split; [discriminate | intros (_ & _ & [=])].
    + split; [intros [= <-]; auto | intros (-> & _ & _); reflexivity].
Qed.

Lemma syLoop_app pre post st :
  syLoop (pre ++ post) st = (st' <- syLoop pre st ;; syLoop post st').
Proof.
  revert st. induction pre as [|t pre IH]; intros st; cbn [app syLoop bind].
  - reflexivity.
  - destruct (syStep st t); cbn [bind]; [apply IH | reflexivity].
Qed.

(** A failing loop has a first failing step. *)
Lemma syLoop_Err toks : forall st e,
  syLoop toks st = Err e ->
  exists pre t post st',
    toks = pre ++ t :: post /\ syLoop pre st = Ok st' /\ syStep st' t = Err e.
Proof.
  induction toks as [|t toks IH]; intros st e H; cbn [syLoop] in H.
  - discriminate.
  - apply bind_Err in H. destruct H as [H | (st1 & Hstep & H)].
    + exists [], t, toks, st. auto.
    + destruct (IH _ _ H) as (pre & t' & post & st' & -> & Hpre & Hfail).
      exists (t :: pre), t', post, st'. repeat split; [|assumption].
      cbn [syLoop]. now rewrite Hstep.
Qed.

Lemma popOps_while t stack : forall out,
  popOps t stack out =
  (dropWhile (popsBefore t) stack, out ++ takeWhile (popsBefore t) stack).
Proof.
  induction stack as [|top stack IH]; intros out; cbn [popOps dropWhile takeWhile].
  - now rewrite app_nil_r.
  - fold (popsBefore t top). destruct (popsBefore t top).
    + rewrite IH. now rewrite <- app_assoc.
    + now rewrite app_nil_r.
Qed.

Lemma popOps_openParens t stack : forall out,
  openParens (fst (popOps t stack out)) = openParens stack.
Proof.
  induction stack as [|top stack IH]; intros out; cbn [popOps]; [reflexivity|].
  destruct (tokType_eqb (typ top) tOp) eqn:E; cbn [andb]; [|reflexivity].
  destruct (prec (val t) <=? prec (val top))%Z; [|reflexivity].
  rewrite IH. unfold openParens. cbn [filter]. unfold isLParen at 2.
  apply tokType_eqb_eq in E. now rewrite E.
Qed.

Lemma popToLParen_openParens stack : forall out,
  openParens stack =
  (if fst (fst (popToLParen stack out)) then 1 else 0) +
  openParens (snd (fst (popToLParen stack out))).
Proof.
  induction stack as [|top stack IH]; intros out; cbn [popToLParen];
    [reflexivity|].
  unfold openParens at 1. cbn [filter]. unfold isLParen at 1.
  destruct (tokType_eqb (typ top) tLParen); [reflexivity|].
  apply IH.
Qed.

Lemma drain_openParens stack :
  Forall (fun t => opOrLParen t = true) stack ->
  existsb isParen stack = negb (Nat.eqb (openParens stack) 0).
Proof.
  induction 1 as [|top stack Htop _ IH]; [reflexivity|].
  cbn [existsb]. unfold openParens. cbn [filter].
  unfold isParen at 1, isLParen at 1. unfold opOrLParen in Htop.
  destruct (typ top); try discriminate; cbn; [exact IH | reflexivity].
Qed.

Lemma syLoop_balanced toks : forall st,
  Forall (fun t => opOrLParen t = true) (sy_stack st) ->
  (exists out,
      (st' <- syLoop toks st ;; drain (sy_stack st') (sy_out st')) = Ok out) <->
  balanced (openParens (sy_stack st)) toks = true.
Proof.
  induction toks as [|t toks IH]; intros st Hst; cbn [syLoop bind balanced].
  - rewrite drain_result, (drain_openParens _ Hst).
    destruct (Nat.eqb (openParens (sy_stack st)) 0); cbn [negb]; split;
      eauto; try discriminate. intros [out H]; discriminate.
  - unfold syStep. destruct (typ t) eqn:Et.
    + cbn [bind]. rewrite (IH (mkSy _ _)) by exact Hst. reflexivity.
    + pose proof (popOps_openParens t (sy_stack st) (sy_out st)) as Hc.
      assert (Hs : Forall (fun t => opOrLParen t = true)
                     (fst (popOps t (sy_stack st) (sy_out st)))).
      { rewrite popOps_while. cbn [fst]. clear - Hst.
        induction Hst as [|x l Hx Hl IHl]; cbn [dropWhile]; [constructor|].
        destruct (popsBefore t x); [assumption | constructor; assumption]. }
      destruct (popOps t (sy_stack st) (sy_out st)) as [stack out].
      cbn [bind fst] in *.
      assert (Ht : opOrLParen t = true) by (unfold opOrLParen; now rewrite Et).
      rewrite (IH (mkSy _ _)) by (constructor; assumption).
      cbn [sy_stack]. unfold openParens in *. cbn [filter].
      unfold isLParen at 1. rewrite Et. cbn [tokType_eqb]. now rewrite Hc.
    + cbn [bind].
      assert (Ht : opOrLParen t = true) by (unfold opOrLParen; now rewrite Et).
      rewrite (IH (mkSy _ _)) by (constructor; assumption).
      cbn [sy_stack]. unfold openParens. cbn [filter].
      unfold isLParen at 1. rewrite Et. reflexivity.
    + pose proof (popToLParen_openParens (sy_stack st) (sy_out st)) as Hc.
      assert (Hs : Forall (fun t => opOrLParen t = true)
                     (snd (fst (popToLParen (sy_stack st) (sy_out st))))).
      { clear - Hst. generalize (sy_out st).
        induction Hst as [|x l Hx Hl IHl]; intros out; cbn [popToLParen];
          [constructor|].
        destruct (tokType_eqb (typ x) tLParen); [assumption | apply IHl]. }
      pose proof (popToLParen_found (sy_stack st) (sy_out st)) as Hf.
      destruct (popToLParen (sy_stack st) (sy_out st)) as [[found stack] out].
      cbn [fst snd] in *. rewrite Hc. destruct found; cbn [bind Nat.add].
      * rewrite (IH (mkSy _ _)) by exact Hs. reflexivity.
      * assert (Hz : openParens stack = 0).
        { enough (openParens (sy_stack st) = 0) by lia.
          clear - Hf. unfold openParens.
          induction (sy_stack st) as [|x l IHl]; [reflexivity|].
          cbn [existsb filter] in *. destruct (isLParen x); [discriminate|].
          apply IHl. now symmetry. }
        rewrite Hz. split; [intros [o H]; discriminate | discriminate].
Qed.

Lemma shuntingYard_balanced toks :
  (exists out, shuntingYard toks = Ok out) <-> balanced 0 toks = true.
Proof. exact (syLoop_balanced toks syInit (Forall_nil _)). Qed.

Lemma shuntingYard_Err toks e :
  shuntingYard toks = Err e -> e = mismatched_parentheses.
Proof.
  unfold shuntingYard. intros H. apply bind_Err in H.
  destruct H as [H | (st & _ & H)].
  - apply syLoop_Err in H. destruct H as (_ & t & _ & st' & _ & _ & H).
    now apply syStep_result_Err in H.
  - rewrite drain_result in H.
    destruct (existsb isParen (sy_stack st)); congruence.
Qed.

(** ** The RPN evaluator *)

Section RPNFacts.

Variable ParseFloat : string -> option float.

Lemma rpnLoop_app pre post st :
  rpnLoop ParseFloat (pre ++ post) st =
  (st' <- rpnLoop ParseFloat pre st ;; rpnLoop ParseFloat post st').
Proof.
  revert st. induction pre as [|t pre IH]; intros st; cbn [app rpnLoop bind].
  - reflexivity.
  - destruct (rpnStep ParseFloat st t); cbn [bind]; [apply IH | reflexivity].
Qed.

(** The loop stops at the first failing step, with that step's error. *)
Lemma evalRPN_failing_step pre t post st e :
  rpnLoop ParseFloat pre [] = Ok st ->
  rpnStep ParseFloat st t = Err e ->
  evalRPN ParseFloat (pre ++ t :: post) = Err e.
Proof.
  intros Hpre Hstep. unfold evalRPN.
  rewrite rpnLoop_app, Hpre. cbn [bind rpnLoop]. now rewrite Hstep.
Qed.

Lemma applyOp_Err op a b e :
  applyOp op a b = Err e ->
  e = division_by_zero /\ op = "/" /\ (b =? 0)%float = true.
Proof.
  unfold applyOp.
  destruct (String.eqb op "+"); [discriminate|].
  destruct (String.eqb op "-"); [discriminate|].
  destruct (String.eqb op "*"); [discriminate|].
  destruct (String.eqb op "/") eqn:E; [|discriminate].
  destruct (b =? 0)%float; [|discriminate].
  intros [= <-]. apply String.eqb_eq in E. auto.
Qed.

Lemma rpnStep_Err st t e :
  rpnStep ParseFloat st t = Err e ->
  e = bad_number \/ e = bad_expression \/ e = division_by_zero.
Proof.
  unfold rpnStep. destruct (typ t).
  - destruct (ParseFloat (val t)); [discriminate | intros [= <-]; auto].
  - destruct st as [|b [|a st']]; try (intros [= <-]; auto).
    intros H. apply bind_Err in H. destruct H as [H | (r & _ & H)];
      [|discriminate].
    apply applyOp_Err in H. destruct H as [-> _]. auto.
  - discriminate.
  - discriminate.
Qed.

Lemma rpnLoop_Err toks : forall st e,
  rpnLoop ParseFloat toks st = Err e ->
  e = bad_number \/ e = bad_expression \/ e = division_by_zero.
Proof.
  induction toks as [|t toks IH]; intros st e H; cbn [rpnLoop] in H.
  - discriminate.
  - apply bind_Err in H. destruct H as [H | (st1 & _ & H)].
    + exact (rpnStep_Err _ _ _ H).
    + exact (IH _ _ H).
Qed.

Lemma rpnFinish_Err st e :
  rpnFinish st = Err e -> e = bad_expression \/ e = bad_result.
Proof.
  unfold rpnFinish. destruct st as [|v [|w st]]; try (intros [= <-]; auto).
  destruct (is_infinity v || is_nan v); [intros [= <-]; auto | discriminate].
Qed.

Lemma evalRPN_Err toks e :
  evalRPN ParseFloat toks = Err e ->
  e = bad_number \/ e = bad_expression \/ e = division_by_zero \/
  e = bad_result.
Proof.
  unfold evalRPN. intros H. apply bind_Err in H.
  destruct H as [H | (st & _ & H)].
  - apply rpnLoop_Err in H. tauto.
  - apply rpnFinish_Err in H. tauto.
Qed.

End RPNFacts.

(** ** Number texts *)

Lemma readDecimal_sawdot s2 s3 : forall mant frac sawdigits,
  strconv.readDecimal (s2 ++ String "." s3) mant frac true sawdigits = None.
Proof.
  induction s2 as [|c s2 IH]; intros mant frac sawdigits;
    cbn [String.append strconv.readDecimal].
  - reflexivity.
  - destruct (Ascii.eqb c "."); [reflexivity|].
    destruct (strconv.isDigit c); [apply IH | reflexivity].
Qed.

Lemma readDecimal_two_points s1 s2 s3 : forall mant frac sawdot sawdigits,
  strconv.readDecimal (s1 ++ String "." (s2 ++ String "." s3))
                      mant frac sawdot sawdigits = None.
Proof.
  induction s1 as [|c s1 IH]; intros mant frac sawdot sawdigits;
    cbn [String.append strconv.readDecimal].
  - cbn. destruct sawdot; [reflexivity | apply readDecimal_sawdot].
  - destruct (Ascii.eqb c ".").
    + destruct sawdot; [reflexivity | apply IH].
    + destruct (strconv.isDigit c); [apply IH | reflexivity].
Qed.

(** A text with two points does not parse. *)
Lemma ParseFloat_two_points s1 s2 s3 :
  strconv.ParseFloat (s1 ++ String "." (s2 ++ String "." s3)) = None.
Proof. unfold strconv.ParseFloat. now rewrite readDecimal_two_points. Qed.

(** ** Error messages *)

Lemma allBytes_complete c : In c allBytes.
Proof.
  rewrite <- (ascii_nat_embedding c). apply in_map. apply in_seq.
  pose proof (nat_ascii_bounded c). lia.
Qed.

Lemma QuoteRune_injective c1 c2 :
  strconv.QuoteRune c1 = strconv.QuoteRune c2 -> c1 = c2.
Proof.
  assert (H : forallb (fun a => forallb (fun b =>
            implb (String.eqb (strconv.QuoteRune a) (strconv.QuoteRune b))
                  (Ascii.eqb a b)) allBytes) allBytes = true)
    by (vm_compute; reflexivity).
  rewrite forallb_forall in H. specialize (H c1 (allBytes_complete c1)).
  rewrite forallb_forall in H. specialize (H c2 (allBytes_complete c2)).
  intros E. rewrite E, String.eqb_refl in H. now apply Ascii.eqb_eq.
Qed.

(** Errors with the same message are the same error. *)
Lemma Error_injective e1 e2 : Error e1 = Error e2 -> e1 = e2.
Proof.
  destruct e1, e2; cbn [Error String.append]; intros H;
    try reflexivity; try discriminate H; try congruence.
  f_equal. apply QuoteRune_injective. congruence.
Qed.

Lemma evalExpr_Err s e :
  evalExpr s = Err e ->
  (e = empty_expression \/
   exists c, e = bad_char c /\ occurs c (removeSpaces s) = true /\
             accepted c = false) \/
  e = mismatched_parentheses \/ e = bad_number \/ e = bad_expression \/
  e = division_by_zero \/ e = bad_result.
Proof.
  unfold evalExpr. intros H.
  apply bind_Err in H. destruct H as [H | (toks & _ & H)].
  { left. exact (tokenize_Err _ _ H). }
  apply bind_Err in H. destruct H as [H | (rpn & _ & H)].
  { apply shuntingYard_Err in H. auto. }
  apply evalRPN_Err in H. tauto.
Qed.

Lemma evaluate_Err s e : evaluate s = Err e <-> evalExpr s = Err e.
Proof.
  unfold evaluate. destruct (evalExpr s); cbn [bind]; split; congruence.
Qed.

(** ** Failure kinds *)

Section TriggerFacts.

Variable ParseFloat : string -> option float.

Lemma rpnLoop_failing_step toks : forall st e,
  rpnLoop ParseFloat toks st = Err e ->
  exists pre t post st',
    toks = pre ++ t :: post /\ rpnLoop ParseFloat pre st = Ok st' /\
    rpnStep ParseFloat st' t = Err e.
Proof.
  induction toks as [|t toks IH]; intros st e H; cbn [rpnLoop] in H.
  - discriminate.
  - apply bind_Err in H. destruct H as [H | (st1 & Hstep & H)].
    + exists [], t, toks, st. auto.
    + destruct (IH _ _ H) as (pre & t' & post & st' & -> & Hpre & Hfail).
      exists (t :: pre), t', post, st'. repeat split; [|assumption].
      cbn [rpnLoop]. now rewrite Hstep.
Qed.

(** A step fails exactly on a trigger, with the error of its kind. *)
Lemma rpnStep_fails st t e :
  rpnStep ParseFloat st t = Err e <->
  exists k, stepFails ParseFloat k st t /\ e = errorOf k.
Proof.
  unfold rpnStep. split.
  - destruct (typ t) eqn:Et; try discriminate.
    + destruct (ParseFloat (val t)) eqn:Ep; [discriminate|].
      intros [= <-]. exists InvalidNumber. cbn. auto.
    + destruct st as [|b [|a st']].
      * intros [= <-]. exists InsufficientOperands. cbn. auto.
      * intros [= <-]. exists InsufficientOperands. cbn. auto.
      * intros H. apply bind_Err in H.
        destruct H as [H | (r & _ & H)]; [|discriminate].
        apply applyOp_Err in H. destruct H as (-> & Hop & Hb).
        exists DivisionByZero. cbn [stepFails errorOf]. repeat split; eauto.
  - intros (k & Hk & ->). destruct k; cbn [stepFails] in Hk; try contradiction.
    + destruct Hk as [-> ->]. reflexivity.
    + destruct Hk as [-> Hlen].
      destruct st as [|b [|a st']]; [reflexivity | reflexivity | cbn in Hlen; lia].
    + destruct Hk as (-> & Hop & b & a & st' & -> & Hb). rewrite Hop.
      unfold applyOp. cbn [String.eqb Ascii.eqb Bool.eqb]. rewrite Hb.
      reflexivity.
Qed.

Lemma rpnFinish_fails st e :
  rpnFinish st = Err e <->
  exists k, finishFails k st /\ e = errorOf k.
Proof.
  unfold rpnFinish. split.
  - destruct st as [|v [|w st]].
    + intros [= <-]. exists MalformedExpression. cbn. auto.
    + destruct (is_infinity v || is_nan v) eqn:E; [|discriminate].
      intros [= <-]. exists InvalidResult. cbn. eauto.
    + intros [= <-]. exists MalformedExpression. cbn. auto.
  - intros (k & Hk & ->). destruct k; cbn [finishFails] in Hk; try contradiction.
    + destruct st as [|v [|w st]]; [reflexivity | cbn in Hk; lia | reflexivity].
    + destruct Hk as (v & -> & Hv). now rewrite Hv.
Qed.

Lemma evalRPN_fails rpn e :
  evalRPN ParseFloat rpn = Err e <->
  exists k, evaluatorFails ParseFloat k rpn /\ e = errorOf k.
Proof.
  unfold evalRPN. split.
  - intros H. apply bind_Err in H. destruct H as [H | (st & Hloop & H)].
    + apply rpnLoop_failing_step in H.
      destruct H as (pre & t & post & st & -> & Hpre & Hstep).
      apply rpnStep_fails in Hstep. destruct Hstep as (k & Hk & ->).
      exists k. split; [|reflexivity]. left. exists pre, t, post, st. auto.
    + apply rpnFinish_fails in H. destruct H as (k & Hk & ->).
      exists k. split; [|reflexivity]. right. exists st. auto.
  - intros (k & [(pre & t & post & st & -> & Hpre & Hk) | (st & Hloop & Hk)] & ->).
    + apply (evalRPN_failing_step _ _ _ _ st); [assumption|].
      apply rpnStep_fails. eauto.
    + rewrite Hloop. cbn [bind]. apply rpnFinish_fails. eauto.
Qed.

End TriggerFacts.

Lemma scan_fails s e :
  scan s [] = Err e <-> exists c, firstBad s = Some c /\ e = bad_char c.
Proof.
  split.
  - intros H. destruct (firstBad s) as [c|] eqn:E.
    + rewrite (scan_firstBad_Some _ _ _ E) in H. injection H as <-. eauto.
    + destruct (scan_firstBad_None _ [] E) as [toks Ht]. congruence.
  - intros (c & Hc & ->). now apply scan_firstBad_Some.
Qed.

Lemma shuntingYard_fails toks e :
  shuntingYard toks = Err e <->
  balanced 0 toks = false /\ e = mismatched_parentheses.
Proof.
  split.
  - intros H. split; [|exact (shuntingYard_Err _ _ H)].
    destruct (balanced 0 toks) eqn:E; [|reflexivity].
    apply shuntingYard_balanced in E. destruct E as [out Ho]. congruence.
  - intros [Hb ->]. destruct (shuntingYard toks) as [out|e] eqn:E.
    + assert (Ht : balanced 0 toks = true)
        by (apply shuntingYard_balanced; eauto).
      congruence.
    + now rewrite (shuntingYard_Err _ _ E).
Qed.

(** [evalExpr] fails exactly on the inputs that have a failure kind, with
    the error of the kind. *)
Lemma evalExpr_fails s e :
  evalExpr s = Err e <-> exists k, fails s k /\ e = errorOf k.
Proof.
  split.
  - unfold evalExpr. intros H.
    apply bind_Err in H. destruct H as [H | (toks & Htok & H)].
    { unfold tokenize in H.
      destruct (String.eqb (removeSpaces s) EmptyString) eqn:E.
      - injection H as <-. exists EmptyExpression. split; [|reflexivity].
        now apply String.eqb_eq in E.
      - apply bind_Err in H. destruct H as [H | (out & _ & H)]; [|discriminate].
        apply scan_fails in H. destruct H as (c & Hc & ->).
        exists (UnexpectedCharacter c). auto. }
    apply bind_Err in H. destruct H as [H | (rpn & Hrpn & H)].
    { apply shuntingYard_fails in H. destruct H as [Hb ->].
      exists MismatchedParentheses. split; [|reflexivity]. exists toks. auto. }
    apply evalRPN_fails in H. destruct H as (k & Hk & ->).
    exists k. split; [|reflexivity].
    assert (Hf : exists toks rpn,
               tokenize s = Ok toks /\ shuntingYard toks = Ok rpn /\
               evaluatorFails strconv.ParseFloat k rpn) by eauto.
    destruct Hk as [(pre & t & post & st & _ & _ & Hk) | (st & _ & Hk)];
      destruct k; cbn [stepFails finishFails] in Hk; try contradiction;
      exact Hf.
  - intros (k & Hk & ->).
    assert (Hlate : (exists toks rpn,
               tokenize s = Ok toks /\ shuntingYard toks = Ok rpn /\
               evaluatorFails strconv.ParseFloat k rpn) ->
             evalExpr s = Err (errorOf k)).
    { intros (toks & rpn & Htok & Hrpn & Hev). unfold evalExpr.
      rewrite Htok. cbn [bind]. rewrite Hrpn. cbn [bind].
      apply evalRPN_fails. eauto. }
    destruct k; cbn [fails] in Hk; try (apply Hlate; exact Hk).
    + unfold evalExpr, tokenize. rewrite Hk. reflexivity.
    + unfold evalExpr, tokenize.
      destruct (String.eqb (removeSpaces s) EmptyString) eqn:E.
      * apply String.eqb_eq in E. rewrite E in Hk. discriminate.
      * assert (Hs : scan (removeSpaces s) [] = Err (bad_char c))
          by (apply scan_fails; eauto).
        now rewrite Hs.
    + destruct Hk as (toks & Htok & Hb). unfold evalExpr.
      rewrite Htok. cbn [bind].
      assert (Hs : shuntingYard toks = Err mismatched_parentheses)
        by (apply shuntingYard_fails; auto).
      now rewrite Hs.
Qed.

Lemma errorOf_message k1 k2 :
  Error (errorOf k1) = Error (errorOf k2) <->
  k1 = k2 \/ operandsOrMalformed k1 k2.
Proof.
  unfold operandsOrMalformed. split.
  - intros H. apply Error_injective in H.
    destruct k1, k2; cbn [errorOf] in H; try discriminate H; auto.
    injection H as ->. auto.
  - intros [-> | [[-> ->] | [-> ->]]]; reflexivity.
Qed.

(** * The claims of the specification *)

(** ** C1: what the error tells the caller *)

(** C1, as stated, fails: an operator short of operands ([*3]) and a
    sequence that leaves two values ([2(3)]) end in the very same error,
    whose message is "bad expression" in both cases. *)
Lemma bad_expression_not_distinguished :
  evaluate "*3" = Err bad_expression /\
  evaluate "2(3)" = Err bad_expression /\
  Error bad_expression = "bad expression".
Proof. repeat split; vm_compute; reflexivity. Qed.

(** C1, amended: [evaluate] fails exactly on the inputs that have a
    failure kind, with the error of that kind; the messages of two kinds
    are the same only when the kinds are the same or they are
    InsufficientOperands and MalformedExpression, which share
    "bad expression" and both occur. *)
Theorem error_message_tells_failure_kind :
  (forall s e,
     evaluate s = Err e <-> exists k, fails s k /\ e = errorOf k) /\
  (forall k1 k2,
     Error (errorOf k1) = Error (errorOf k2) <->
     k1 = k2 \/ operandsOrMalformed k1 k2) /\
  (forall s1 s2 k1 k2 e1 e2,
     fails s1 k1 -> fails s2 k2 ->
     evaluate s1 = Err e1 -> evaluate s2 = Err e2 ->
     (Error e1 = Error e2 <-> k1 = k2 \/ operandsOrMalformed k1 k2)) /\
  fails "*3" InsufficientOperands /\ fails "2(3)" MalformedExpression /\
  Error (errorOf InsufficientOperands) = "bad expression" /\
  Error (errorOf MalformedExpression) = "bad expression".
Proof.
  assert (H1 : forall s e,
             evaluate s = Err e <-> exists k, fails s k /\ e = errorOf k).
  { intros s e. rewrite evaluate_Err. apply evalExpr_fails. }
  split; [exact H1|]. split; [exact errorOf_message|]. split.
  - intros s1 s2 k1 k2 e1 e2 F1 F2 E1 E2.
    assert (G1 : evaluate s1 = Err (errorOf k1)) by (apply H1; eauto).
    assert (G2 : evaluate s2 = Err (errorOf k2)) by (apply H1; eauto).
    replace e1 with (errorOf k1) by congruence.
    replace e2 with (errorOf k2) by congruence.
    apply errorOf_message.
  - repeat split.
    + exists [Op "*"; Num "3"], [Num "3"; Op "*"].
      split; [reflexivity|]. split; [reflexivity|]. left.
      exists [Num "3"], (Op "*"), [], [3%float].
      split; [reflexivity|]. split; [vm_compute; reflexivity|].
      cbn. split; [reflexivity | lia].
    + exists [Num "2"; LParen; Num "3"; RParen], [Num "2"; Num "3"].
      split; [reflexivity|]. split; [reflexivity|]. right.
      exists [3%float; 2%float]. split; [vm_compute; reflexivity|].
      cbn. lia.
Qed.

(** ** C2: blanks *)

(** C2, as stated, fails: only the space is stripped, so a tab inside an
    expression is a bad character, while the expression without it has a
    value. *)
Lemma tab_is_significant :
  evaluate (String "1" (String tab "+2")) = Err (bad_char tab) /\
  evaluate "1+2" = Ok "3".
Proof. split; vm_compute; reflexivity. Qed.

Lemma tokenize_removeSpaces s : tokenize (removeSpaces s) = tokenize s.
Proof. unfold tokenize. now rewrite removeSpaces_idempotent. Qed.

Lemma tokenize_space s1 s2 :
  tokenize (s1 ++ String " " s2) = tokenize (s1 ++ s2).
Proof.
  unfold tokenize. rewrite !removeSpaces_app. reflexivity.
Qed.

(** C2, amended to the space character (byte 0x20): [tokenize] strips every
    space before scanning, so removing all spaces from an input, or one
    space anywhere in it, does not change the result of [evaluate], and a
    space is never reported as a bad character. *)
Theorem spaces_never_significant (s : string) :
  evaluate (removeSpaces s) = evaluate s /\
  (forall s1 s2, evaluate (s1 ++ String " " s2) = evaluate (s1 ++ s2)) /\
  evaluate s <> Err (bad_char " ").
Proof.
  repeat split.
  - unfold evaluate, evalExpr. now rewrite tokenize_removeSpaces.
  - intros s1 s2. unfold evaluate, evalExpr. now rewrite tokenize_space.
  - intros H. apply evaluate_Err, evalExpr_Err in H.
    destruct H as [[H | (c & [= <-] & Hocc & _)] | H].
    + discriminate.
    + now rewrite removeSpaces_no_space in Hocc.
    + repeat (destruct H as [H | H]; [discriminate|]). discriminate.
Qed.

(** ** C3: a leading plus *)

(** C3: the rewrite inserts a zero only before a [-] operator (it is
    [insertZeros]); an operator [+] at the head of the tokens stays at the
    head with nothing before it, and [+3] fails with "bad expression"
    instead of evaluating to 3. *)
Theorem leading_plus_not_rewritten :
  (forall toks, rewriteUnaryMinus toks = insertZeros None toks) /\
  (forall rest,
      rewriteUnaryMinus (Op "+" :: rest) =
      Op "+" :: insertZeros (Some (Op "+")) rest) /\
  tokenize "+3" = Ok [Op "+"; Num "3"] /\
  shuntingYard [Op "+"; Num "3"] = Ok [Num "3"; Op "+"] /\
  evaluate "+3" = Err bad_expression.
Proof.
  split; [exact rewriteUnaryMinus_spec|].
  split; [intros rest; now rewrite rewriteUnaryMinus_spec|].
  repeat split; vm_compute; reflexivity.
Qed.

(** ** C4: unary minus *)

(** C4 fails on the code at [3*-2]: the zero goes in without parentheses,
    the tokens read [3*0-2], and the value is -2, not -6.  For the same
    reason [2--3] is -1 and [2/-4] divides by zero.  The other example,
    [-5+2], gives -3 as claimed. *)
Theorem unary_minus_after_times :
  tokenize "3*-2" = Ok [Num "3"; Op "*"; Num "0"; Op "-"; Num "2"] /\
  shuntingYard [Num "3"; Op "*"; Num "0"; Op "-"; Num "2"] =
    Ok [Num "3"; Num "0"; Op "*"; Num "2"; Op "-"] /\
  evaluate "3*-2" = Ok "-2" /\
  evaluate "2--3" = Ok "-1" /\
  evaluate "2/-4" = Err division_by_zero /\
  evaluate "-5+2" = Ok "-3".
Proof. repeat split; vm_compute; reflexivity. Qed.

(** ** C5: precedence and associativity *)

(** C5: the precedence table is [+:1, -:1, *:2, /:2]; at an operator [t]
    the parser moves to the output the longest run of operators on top of
    the stack whose precedence is at least that of [t] (the comparison is
    [>=]) and leaves the rest; so of two operators in a row the first goes
    to the output before the second exactly when its precedence is at least
    the second's, and equal precedence associates to the left; and the
    three examples evaluate as claimed. *)
Theorem precedence_and_left_associativity :
  prec "+" = 1%Z /\ prec "-" = 1%Z /\ prec "*" = 2%Z /\ prec "/" = 2%Z /\
  (forall t stack out,
      popOps t stack out =
      (dropWhile (popsBefore t) stack, out ++ takeWhile (popsBefore t) stack)) /\
  (forall a b c o1 o2,
      shuntingYard [Num a; Op o1; Num b; Op o2; Num c] =
      Ok (if (prec o2 <=? prec o1)%Z
          then [Num a; Num b; Op o1; Num c; Op o2]
          else [Num a; Num b; Num c; Op o2; Op o1])) /\
  evaluate "2+3*4" = Ok "14" /\
  evaluate "(2+3)*4" = Ok "20" /\
  evaluate "8-3-2" = Ok "3".
Proof.
  do 4 (split; [reflexivity|]).
  split; [intros t stack out; apply popOps_while|].
  split.
  - intros a b c o1 o2. unfold shuntingYard, syInit.
    cbn [syLoop syStep typ val bind sy_out sy_stack app popOps tokType_eqb andb].
    destruct (prec o2 <=? prec o1)%Z; reflexivity.
  - repeat split; vm_compute; reflexivity.
Qed.

(** ** C6: mismatched parentheses *)

(** C6: [shuntingYard] fails with "mismatched parentheses" exactly when a
    right parenthesis finds no left one on the stack or a parenthesis is
    left on the stack at the end ([rparenUnmatched], [parenLeftOnStack]);
    it fails with no other error, and it succeeds exactly on the token
    sequences whose parentheses are balanced; both examples fail that way. *)
Theorem mismatched_parentheses_exactly (toks : list token) :
  (shuntingYard toks = Err mismatched_parentheses <->
   rparenUnmatched toks \/ parenLeftOnStack toks) /\
  (forall e, shuntingYard toks = Err e -> e = mismatched_parentheses) /\
  ((exists out, shuntingYard toks = Ok out) <-> balanced 0 toks = true) /\
  evaluate "(1+2" = Err mismatched_parentheses /\
  evaluate "1+2)" = Err mismatched_parentheses.
Proof.
  split; [|split; [intros e; apply shuntingYard_Err |
                   split; [apply shuntingYard_balanced |
                           split; vm_compute; reflexivity]]].
  unfold shuntingYard. split.
  - intros H. apply bind_Err in H. destruct H as [H | (st & Hloop & H)].
    + left. apply syLoop_Err in H.
      destruct H as (pre & t & post & st' & -> & Hpre & Hstep).
      apply syStep_result_Err in Hstep. destruct Hstep as (_ & Ht & Hno).
      exists pre, t, post, st'. auto.
    + right. exists st. split; [assumption|].
      rewrite drain_result in H.
      destruct (existsb isParen (sy_stack st)); [reflexivity | discriminate].
  - intros [(pre & t & post & st & -> & Ht & Hpre & Hno) | (st & Hloop & Hp)].
    + rewrite syLoop_app, Hpre. cbn [bind syLoop].
      assert (Hstep : syStep st t = Err mismatched_parentheses)
        by (apply syStep_result_Err; auto).
      now rewrite Hstep.
    + rewrite Hloop. cbn [bind]. now rewrite drain_result, Hp.
Qed.

(** ** C7: numbers are checked late *)

Lemma removeSpaces_numChars s : allNumChars s = true -> removeSpaces s = s.
Proof.
  induction s as [|c s IH]; cbn [allNumChars removeSpaces]; [reflexivity|].
  intros H. apply andb_prop in H. destruct H as [Hc Hs].
  destruct (Ascii.eqb c " ") eqn:E.
  - apply Ascii.eqb_eq in E. subst c. discriminate Hc.
  - now rewrite IH.
Qed.

(** C7: a run of digits and points is one Number token whatever its
    points, so [tokenize] accepts it; when the text does not parse as a
    floating-point value the failure is the evaluator's "bad number",
    wherever the token stands in the postfix sequence; and a text with two
    points never parses. *)
Theorem malformed_number_rejected_late (c : ascii) (s' : string) :
  isNumChar c = true -> allNumChars s' = true ->
  strconv.ParseFloat (String c s') = None ->
  tokenize (String c s') = Ok [Num (String c s')] /\
  shuntingYard [Num (String c s')] = Ok [Num (String c s')] /\
  evaluate (String c s') = Err bad_number /\
  (forall ParseFloat pre post st text,
      rpnLoop ParseFloat pre [] = Ok st -> ParseFloat text = None ->
      evalRPN ParseFloat (pre ++ Num text :: post) = Err bad_number) /\
  (forall s1 s2 s3,
      strconv.ParseFloat (s1 ++ String "." (s2 ++ String "." s3)) = None).
Proof.
  intros Hc Hs Hparse.
  assert (Htok : tokenize (String c s') = Ok [Num (String c s')]).
  { unfold tokenize.
    rewrite removeSpaces_numChars by (cbn [allNumChars]; now rewrite Hc, Hs).
    cbn [String.eqb]. simp scan. rewrite Hc, (scanNumber_all _ Hs).
    cbn [fst snd app]. simp scan. reflexivity. }
  repeat split.
  - exact Htok.
  - unfold evaluate, evalExpr. rewrite Htok. cbn [bind].
    unfold shuntingYard, evalRPN, syInit.
    cbn [syLoop syStep typ val bind sy_out sy_stack app drain rpnLoop rpnStep].
    now rewrite Hparse.
  - intros PF pre post st text Hpre Htext.
    apply (evalRPN_failing_step _ _ _ _ st); [assumption|].
    unfold rpnStep. cbn [typ val]. now rewrite Htext.
  - exact ParseFloat_two_points.
Qed.

(** The text [1.2.3]. *)
Lemma malformed_number_rejected_late_witness :
  tokenize "1.2.3" = Ok [Num "1.2.3"] /\
  evaluate "1.2.3" = Err bad_number.
Proof.
  destruct (malformed_number_rejected_late "1" ".2.3" eq_refl eq_refl eq_refl)
    as (H1 & _ & H2 & _).
  exact (conj H1 H2).
Defined.

(** ** C8: division by zero *)

(** C8: a [/] whose right-hand operand (the top of the stack, pushed last)
    compares equal to zero fails with "division by zero", at the step and
    for the whole evaluation, and pushes nothing; any other right-hand
    operand, however small, is divided by; and [1/0] fails that way. *)
Theorem division_by_exact_zero
  (ParseFloat : string -> option float)
  (pre post : list token) (a b : float) (st : list float) :
  rpnLoop ParseFloat pre [] = Ok (b :: a :: st) ->
  (b =? 0)%float = true ->
  rpnStep ParseFloat (b :: a :: st) (Op "/") = Err division_by_zero /\
  evalRPN ParseFloat (pre ++ Op "/" :: post) = Err division_by_zero /\
  (forall a' b' st',
      rpnStep ParseFloat (b' :: a' :: st') (Op "/") =
      if (b' =? 0)%float then Err division_by_zero
      else Ok ((a' / b')%float :: st')) /\
  evaluate "1/0" = Err division_by_zero.
Proof.
  intros Hpre Hb.
  assert (Hstep : forall a' b' st',
             rpnStep ParseFloat (b' :: a' :: st') (Op "/") =
             if (b' =? 0)%float then Err division_by_zero
             else Ok ((a' / b')%float :: st')).
  { intros a' b' st'. unfold rpnStep, applyOp. cbn [typ val String.eqb].
    cbn. destruct (b' =? 0)%float; reflexivity. }
  assert (Hfail : rpnStep ParseFloat (b :: a :: st) (Op "/") =
                  Err division_by_zero)
    by (now rewrite Hstep, Hb).
  repeat split.
  - exact Hfail.
  - exact (evalRPN_failing_step _ _ _ _ _ _ Hpre Hfail).
  - exact Hstep.
Qed.

(** The postfix sequence [1 0 /]. *)
Lemma division_by_exact_zero_witness :
  evalRPN strconv.ParseFloat [Num "1"; Num "0"; Op "/"] = Err division_by_zero.
Proof.
  exact (proj1 (proj2 (division_by_exact_zero strconv.ParseFloat
                         [Num "1"; Num "0"] [] 1%float 0%float []
                         eq_refl eq_refl))).
Defined.

(** ** C9: the postfix sequence holds numbers and operators only *)

(** C9: a successful [shuntingYard] returns Number and Operator tokens
    only, so [evalRPN] never meets a token it would skip. *)
Theorem postfix_has_no_parentheses (toks out : list token) :
  shuntingYard toks = Ok out ->
  Forall (fun t => typ t = tNumber \/ typ t = tOp) out.
Proof.
  unfold shuntingYard. intros H.
  apply bind_Ok in H. destruct H as (st & Hloop & Hdrain).
  assert (Hinv : syInv st).
  { apply (syLoop_inv _ _ _ Hloop). split; constructor. }
  pose proof (drain_Ok _ _ _ Hdrain (proj1 Hinv)) as Hout.
  eapply Forall_impl; [|exact Hout].
  intros t Ht. unfold numOrOp in Ht.
  destruct (typ t); auto; discriminate.
Qed.

(** The tokens of [(2+3)*4]. *)
Lemma postfix_has_no_parentheses_witness :
  Forall (fun t => typ t = tNumber \/ typ t = tOp)
         [Num "2"; Num "3"; Op "+"; Num "4"; Op "*"].
Proof.
  exact (postfix_has_no_parentheses
           [LParen; Num "2"; Op "+"; Num "3"; RParen; Op "*"; Num "4"]
           [Num "2"; Num "3"; Op "+"; Num "4"; Op "*"] eq_refl).
Defined.

(** ** C10: empty parentheses *)

(** C10: [()] passes the tokenizer and the parser, which returns the empty
    postfix sequence; the evaluator then finds no value on the stack and
    fails with "bad expression", not "mismatched parentheses". *)
Theorem empty_parentheses_bad_expression :
  tokenize "()" = Ok [LParen; RParen] /\
  shuntingYard [LParen; RParen] = Ok [] /\
  rpnLoop strconv.ParseFloat [] [] = Ok [] /\
  rpnFinish [] = Err bad_expression /\
  evaluate "()" = Err bad_expression.
Proof. repeat split; vm_compute; reflexivity. Qed.

(** * Further properties of the code *)

(** ** The tokenizer: what it accepts and what it returns *)

Lemma string_eqb_empty s : String.eqb s EmptyString = true <-> s = EmptyString.
Proof. apply String.eqb_eq. Qed.

Lemma evalExpr_after_tokenize s toks e :
  tokenize s = Ok toks -> evalExpr s = Err e ->
  e = mismatched_parentheses \/ e = bad_number \/ e = bad_expression \/
  e = division_by_zero \/ e = bad_result.
Proof.
  unfold evalExpr. intros -> H. cbn [bind] in H.
  apply bind_Err in H. destruct H as [H | (rpn & _ & H)].
  - apply shuntingYard_Err in H. auto.
  - apply evalRPN_Err in H. tauto.
Qed.

(** X1: [evaluate] fails with "empty expression" exactly when nothing is left
    of the input once its spaces are removed; no later stage reports that
    error. *)
Theorem empty_expression_exactly (s : string) :
  evaluate s = Err empty_expression <-> removeSpaces s = EmptyString.
Proof.
  rewrite evaluate_Err. split.
  - intros H. destruct (tokenize s) as [toks|e] eqn:Et.
    + apply (evalExpr_after_tokenize _ _ _ Et) in H.
      repeat (destruct H as [H | H]; [discriminate|]). discriminate.
    + unfold tokenize in Et.
      destruct (String.eqb (removeSpaces s) EmptyString) eqn:E;
        [now apply String.eqb_eq in E|].
      unfold evalExpr, tokenize in H. rewrite E in H.
      destruct (scan (removeSpaces s) []) eqn:Es; cbn [bind] in *;
        [discriminate|].
      apply scan_Err in Es. destruct Es as (c & -> & _). discriminate.
  - intros H. unfold evalExpr, tokenize. rewrite H. reflexivity.
Qed.

Lemma firstBad_nonempty s c : firstBad s = Some c -> s <> EmptyString.
Proof. destruct s; [discriminate | congruence]. Qed.

(** X2: when the input holds a byte the scanner does not accept, [evaluate]
    fails with "bad char" naming the first such byte, whatever else is
    wrong with the input. *)
Theorem bad_char_reported_first (s : string) (c : ascii) :
  firstBad (removeSpaces s) = Some c -> evaluate s = Err (bad_char c).
Proof.
  intros H. apply evaluate_Err. unfold evalExpr, tokenize.
  destruct (String.eqb (removeSpaces s) EmptyString) eqn:E.
  - apply String.eqb_eq in E. rewrite E in H. discriminate.
  - now rewrite (scan_firstBad_Some _ _ _ H).
Qed.

Lemma bad_char_reported_first_witness :
  evaluate "(2 + a) * b)" = Err (bad_char "a").
Proof. exact (bad_char_reported_first "(2 + a) * b)" "a" eq_refl). Defined.

(** X3: [tokenize] succeeds exactly on the inputs that, spaces removed, are
    not empty and hold accepted bytes only (digits, point, the four
    operators, parentheses). *)
Theorem tokenize_succeeds_exactly (s : string) :
  (exists toks, tokenize s = Ok toks) <->
  removeSpaces s <> EmptyString /\ firstBad (removeSpaces s) = None.
Proof.
  unfold tokenize. split.
  - intros [toks H].
    destruct (String.eqb (removeSpaces s) EmptyString) eqn:E; [discriminate|].
    split.
    + intros Hs. rewrite Hs in E. discriminate.
    + destruct (firstBad (removeSpaces s)) as [c|] eqn:Hb; [|reflexivity].
      rewrite (scan_firstBad_Some _ _ _ Hb) in H. discriminate.
  - intros [Hne Hb].
    destruct (String.eqb (removeSpaces s) EmptyString) eqn:E.
    + apply String.eqb_eq in E. contradiction.
    + destruct (scan_firstBad_None _ [] Hb) as [out ->]. cbn [bind]. eauto.
Qed.

Lemma scanNumber_split s :
  (fst (scanNumber s) ++ snd (scanNumber s))%string = s.
Proof.
  induction s as [|c s IH]; cbn [scanNumber]; [reflexivity|].
  destruct (isNumChar c); [|reflexivity].
  destruct (scanNumber s) as [run rest]. cbn [fst snd String.append] in *.
  now rewrite IH.
Qed.

Lemma spell_app l1 l2 : spell (l1 ++ l2) = (spell l1 ++ spell l2)%string.
Proof.
  induction l1 as [|t l1 IH]; cbn [app spell String.append]; [reflexivity|].
  rewrite IH. clear. induction (val t); cbn; [reflexivity | now f_equal].
Qed.

Lemma string_app_nil_r s : (s ++ EmptyString)%string = s.
Proof. induction s; cbn; [reflexivity | now f_equal]. Qed.

Lemma string_app_assoc a b c : ((a ++ b) ++ c)%string = (a ++ (b ++ c))%string.
Proof. induction a; cbn; [reflexivity | now f_equal]. Qed.

Lemma scan_spell s out toks :
  scan s out = Ok toks -> spell toks = (spell out ++ s)%string.
Proof.
  revert toks. funelim (scan s out); intros toks.
  - intros [= <-]. now rewrite string_app_nil_r.
  - assert (Hone : forall t rest,
              (spell (out ++ [t]) ++ rest)%string =
              (spell out ++ (val t ++ rest))%string).
    { intros t rest. rewrite spell_app. cbn [spell].
      now rewrite string_app_nil_r, string_app_assoc. }
    destruct (isNumChar c) eqn:E1.
    { intros Hs. rewrite (H _ Hs), Hone. cbn [val String.append].
      now rewrite scanNumber_split. }
    destruct (isOpChar c) eqn:E2; [intros Hs; now rewrite (H0 _ Hs), Hone|].
    destruct (Ascii.eqb c "(") eqn:E3.
    { intros Hs. rewrite (H1 _ Hs), Hone. apply Ascii.eqb_eq in E3.
      now subst c. }
    destruct (Ascii.eqb c ")") eqn:E4.
    { intros Hs. rewrite (H2 _ Hs), Hone. apply Ascii.eqb_eq in E4.
      now subst c. }
    discriminate.
Qed.

(** X4: the tokens [tokenize] returns are the lexemes of the input with the
    zeros of the unary minus inserted, and the lexemes, read in order,
    spell the input without its spaces: the scanner drops and invents no
    byte. *)
Theorem tokens_spell_input (s : string) (toks : list token) :
  tokenize s = Ok toks ->
  exists lexemes,
    toks = insertZeros None lexemes /\ spell lexemes = removeSpaces s /\
    Forall (fun t => tokenOk t = true) lexemes.
Proof.
  unfold tokenize.
  destruct (String.eqb (removeSpaces s) EmptyString); [discriminate|].
  intros H. apply bind_Ok in H. destruct H as (out & Hscan & [= <-]).
  exists out. split; [apply rewriteUnaryMinus_spec|]. split.
  - now rewrite (scan_spell _ _ _ Hscan).
  - exact (scan_tokens _ _ _ Hscan (Forall_nil _)).
Qed.

Lemma tokens_spell_input_witness :
  exists lexemes,
    [Num "0"; Op "-"; Num "5"; Op "+"; Num "2"] = insertZeros None lexemes /\
    spell lexemes = "-5+2" /\
    Forall (fun t => tokenOk t = true) lexemes.
Proof. exact (tokens_spell_input " -5 + 2" _ eq_refl). Defined.

Lemma insertZeros_idem toks : forall prev,
  insertZeros prev (insertZeros prev toks) = insertZeros prev toks.
Proof.
  induction toks as [|t toks IH]; intros prev; cbn [insertZeros]; [reflexivity|].
  destruct (isMinus t && unaryPosition prev) eqn:E.
  - cbn [app insertZeros]. 
    replace (isMinus zeroToken) with false by reflexivity. cbn [andb app].
    replace (unaryPosition (Some zeroToken)) with false by reflexivity.
    rewrite andb_false_r. cbn [app]. now rewrite IH.
  - cbn [app insertZeros]. rewrite E. cbn [app]. now rewrite IH.
Qed.

Lemma insertZeros_no_unary toks : forall prev,
  hasUnaryMinus prev (insertZeros prev toks) = false.
Proof.
  induction toks as [|t toks IH]; intros prev; cbn [insertZeros]; [reflexivity|].
  destruct (isMinus t && unaryPosition prev) eqn:E; cbn [app hasUnaryMinus].
  - replace (isMinus zeroToken) with false by reflexivity.
    replace (unaryPosition (Some zeroToken)) with false by reflexivity.
    rewrite andb_false_r. cbn [andb orb]. apply IH.
  - rewrite E. cbn [orb]. apply IH.
Qed.

(** X5: [rewriteUnaryMinus] is idempotent: its result has no [-] left
    in a unary position, and a sequence without one is returned
    unchanged. *)
Theorem rewriteUnaryMinus_idempotent (toks : list token) :
  rewriteUnaryMinus (rewriteUnaryMinus toks) = rewriteUnaryMinus toks /\
  hasUnaryMinus None (rewriteUnaryMinus toks) = false /\
  (hasUnaryMinus None toks = false -> rewriteUnaryMinus toks = toks).
Proof.
  rewrite !rewriteUnaryMinus_spec. split; [apply insertZeros_idem|].
  split; [apply insertZeros_no_unary|].
  generalize (@None token). induction toks as [|t toks IH]; intros prev;
    cbn [hasUnaryMinus insertZeros]; [reflexivity|].
  intros H. apply orb_false_elim in H. destruct H as [H1 H2].
  rewrite H1. cbn [app]. now rewrite IH.
Qed.

(** ** The parser: the postfix sequence as a rearrangement *)

Lemma popOps_app t stack : forall out,
  snd (popOps t stack out) ++ fst (popOps t stack out) = out ++ stack.
Proof.
  intros out. rewrite popOps_while. cbn [fst snd]. rewrite <- app_assoc. f_equal.
  induction stack as [|x l IH]; cbn [takeWhile dropWhile]; [reflexivity|].
  destruct (popsBefore t x); [cbn [app]; now rewrite IH | reflexivity].
Qed.

(** What the [tRParen] loop popped, up to the left parenthesis it found. *)
Lemma popToLParen_app stack : forall out,
  fst (fst (popToLParen stack out)) = true ->
  exists lp,
    isLParen lp = true /\
    out ++ stack =
    snd (popToLParen stack out) ++ lp :: snd (fst (popToLParen stack out)).
Proof.
  induction stack as [|x l IH]; intros out; cbn [popToLParen].
  - discriminate.
  - destruct (tokType_eqb (typ x) tLParen) eqn:E.
    + intros _. exists x. cbn [fst snd]. auto.
    + intros H. destruct (IH _ H) as (lp & Hlp & Heq). exists lp.
      split; [assumption|]. rewrite <- Heq. now rewrite <- app_assoc.
Qed.

Lemma filter_notParen_LParen l1 lp l2 :
  isLParen lp = true ->
  filter notParen (l1 ++ lp :: l2) = filter notParen (l1 ++ l2).
Proof.
  intros H. rewrite !filter_app. cbn [filter]. unfold notParen at 2, isParen.
  unfold isLParen in H. now rewrite H.
Qed.

Lemma filter_perm {A} (f : A -> bool) l l' :
  Permutation l l' -> Permutation (filter f l) (filter f l').
Proof.
  induction 1 as [|x l l' _ IH|x y l|l l' l'' _ IH1 _ IH2]; cbn [filter].
  - constructor.
  - destruct (f x); [now constructor | assumption].
  - destruct (f x), (f y); try reflexivity. constructor.
  - now transitivity (filter f l').
Qed.

Lemma filter_notParen_drop l t :
  isParen t = true -> filter notParen (l ++ [t]) = filter notParen l.
Proof.
  intros H. rewrite filter_app. cbn [filter]. unfold notParen. rewrite H.
  apply app_nil_r.
Qed.

Lemma syStep_perm st t st' :
  syStep st t = Ok st' ->
  Permutation (filter notParen (sy_out st' ++ sy_stack st'))
              (filter notParen (sy_out st ++ sy_stack st ++ [t])).
Proof.
  unfold syStep. destruct (typ t) eqn:Et.
  - intros [= <-]. cbn [sy_out sy_stack]. apply filter_perm.
    rewrite <- app_assoc. apply Permutation_app_head, Permutation_app_comm.
  - pose proof (popOps_app t (sy_stack st) (sy_out st)) as Ha.
    destruct (popOps t (sy_stack st) (sy_out st)) as [stack out].
    cbn [fst snd] in Ha. intros [= <-]. cbn [sy_out sy_stack].
    apply filter_perm. rewrite app_assoc, <- Ha.
    rewrite <- Permutation_middle. apply Permutation_cons_append.
  - intros [= <-]. cbn [sy_out sy_stack]. apply filter_perm.
    apply Permutation_app_head.
    change (t :: sy_stack st) with ([t] ++ sy_stack st).
    apply Permutation_app_comm.
  - pose proof (popToLParen_app (sy_stack st) (sy_out st)) as Ha.
    destruct (popToLParen (sy_stack st) (sy_out st)) as [[found stack] out].
    cbn [fst snd] in Ha. destruct found; [|discriminate].
    intros [= <-]. cbn [sy_out sy_stack].
    destruct (Ha eq_refl) as (lp & Hlp & Heq).
    rewrite app_assoc, filter_notParen_drop
      by (unfold isParen; rewrite Et; apply orb_true_r).
    rewrite Heq. now rewrite (filter_notParen_LParen _ _ _ Hlp).
Qed.

Lemma syLoop_perm toks : forall st st',
  syLoop toks st = Ok st' ->
  Permutation (filter notParen (sy_out st' ++ sy_stack st'))
              (filter notParen (sy_out st ++ sy_stack st ++ toks)).
Proof.
  induction toks as [|t toks IH]; intros st st' H; cbn [syLoop] in H.
  - injection H as <-. now rewrite app_nil_r.
  - apply bind_Ok in H. destruct H as (st1 & Hstep & Hloop).
    rewrite (IH _ _ Hloop). apply syStep_perm in Hstep.
    rewrite !app_assoc, filter_app, (filter_app _ _ (t :: toks)).
    change (t :: toks) with ([t] ++ toks).
    rewrite (filter_app _ [t] toks), app_assoc.
    apply Permutation_app_tail. rewrite <- filter_app.
    rewrite <- !app_assoc in *. exact Hstep.
Qed.

Lemma filter_true {A} (f : A -> bool) l :
  Forall (fun x => f x = true) l -> filter f l = l.
Proof.
  induction 1 as [|x l Hx _ IH]; cbn [filter]; [reflexivity|].
  now rewrite Hx, IH.
Qed.

Lemma filter_false {A} (f : A -> bool) l :
  Forall (fun x => f x = false) l -> filter f l = [].
Proof.
  induction 1 as [|x l Hx _ IH]; cbn [filter]; [reflexivity|].
  now rewrite Hx, IH.
Qed.

(** Numbers never wait on the stack. *)
Lemma syStep_numbers st t st' :
  syStep st t = Ok st' -> syInv st ->
  filter isNumber (sy_out st') = filter isNumber (sy_out st ++ [t]).
Proof.
  intros H [_ Hst].
  assert (Hnone : forall l, Forall (fun t => opOrLParen t = true) l ->
                            filter isNumber l = []).
  { intros l Hl. apply filter_false. eapply Forall_impl; [|exact Hl].
    intros x Hx. unfold opOrLParen in Hx. unfold isNumber.
    destruct (typ x); try discriminate; reflexivity. }
  assert (Ht : isNumber t = false -> filter isNumber [t] = []).
  { intros Hk. cbn [filter]. now rewrite Hk. }
  unfold syStep in H. destruct (typ t) eqn:Et.
  - now injection H as <-.
  - pose proof (popOps_app t (sy_stack st) (sy_out st)) as Ha.
    pose proof (popOps_inv t (sy_stack st) [] (Forall_nil _) Hst) as [_ Hs].
    assert (Hs' : Forall (fun t => opOrLParen t = true)
                    (fst (popOps t (sy_stack st) (sy_out st)))).
    { rewrite popOps_while in *. exact Hs. }
    destruct (popOps t (sy_stack st) (sy_out st)) as [stack out].
    cbn [fst snd] in *. injection H as <-. cbn [sy_out].
    apply (f_equal (filter isNumber)) in Ha. rewrite !filter_app in Ha.
    rewrite (Hnone _ Hs'), (Hnone _ Hst), !app_nil_r in Ha.
    rewrite filter_app, Ht, app_nil_r
      by (unfold isNumber; now rewrite Et). exact Ha.
  - injection H as <-. cbn [sy_out].
    now rewrite filter_app, Ht, app_nil_r
      by (unfold isNumber; now rewrite Et).
  - pose proof (popToLParen_app (sy_stack st) (sy_out st)) as Ha.
    pose proof (popToLParen_inv (sy_stack st) [] (Forall_nil _) Hst) as [_ Hs].
    assert (Hs' : Forall (fun t => opOrLParen t = true)
                    (snd (fst (popToLParen (sy_stack st) (sy_out st))))).
    { clear - Hst. generalize (sy_out st).
      induction Hst as [|x l Hx Hl IHl]; intros out; cbn [popToLParen];
        [constructor|].
      destruct (tokType_eqb (typ x) tLParen); [assumption | apply IHl]. }
    destruct (popToLParen (sy_stack st) (sy_out st)) as [[found stack] out].
    cbn [fst snd] in *. destruct found; [|discriminate].
    injection H as <-. cbn [sy_out].
    destruct (Ha eq_refl) as (lp & Hlp & Heq).
    apply (f_equal (filter isNumber)) in Heq. rewrite !filter_app in Heq.
    cbn [filter] in Heq. unfold isNumber at 4 in Heq.
    unfold isLParen in Hlp. apply tokType_eqb_eq in Hlp. rewrite Hlp in Heq.
    cbn [tokType_eqb] in Heq.
    rewrite (Hnone _ Hs'), (Hnone _ Hst), !app_nil_r in Heq.
    rewrite filter_app, Ht, app_nil_r
      by (unfold isNumber; now rewrite Et). now symmetry.
Qed.

Lemma syLoop_numbers toks : forall st st',
  syLoop toks st = Ok st' -> syInv st ->
  filter isNumber (sy_out st') = filter isNumber (sy_out st ++ toks).
Proof.
  induction toks as [|t toks IH]; intros st st' H Hinv; cbn [syLoop] in H.
  - injection H as <-. now rewrite app_nil_r.
  - apply bind_Ok in H. destruct H as (st1 & Hstep & Hloop).
    rewrite (IH _ _ Hloop (syStep_inv _ _ _ Hstep Hinv)).
    rewrite filter_app, (syStep_numbers _ _ _ Hstep Hinv).
    rewrite <- filter_app, <- app_assoc. reflexivity.
Qed.

(** X6: the postfix sequence [shuntingYard] returns is a rearrangement of the
    input tokens without the parentheses, and the numbers keep their
    order. *)
Theorem postfix_rearranges_input (toks out : list token) :
  shuntingYard toks = Ok out ->
  Permutation out (filter notParen toks) /\
  filter isNumber out = filter isNumber toks.
Proof.
  unfold shuntingYard. intros H.
  apply bind_Ok in H. destruct H as (st & Hloop & Hdrain).
  assert (Hinv : syInv st).
  { apply (syLoop_inv _ _ _ Hloop). split; constructor. }
  rewrite drain_result in Hdrain.
  destruct (existsb isParen (sy_stack st)) eqn:Hp; [discriminate|].
  injection Hdrain as <-.
  pose proof (syLoop_perm _ _ _ Hloop) as Hperm. cbn [syInit sy_out sy_stack app] in Hperm.
  split.
  - rewrite <- Hperm. rewrite filter_true; [reflexivity|].
    destruct Hinv as [Ho Hs]. apply Forall_app. split.
    + eapply Forall_impl; [|exact Ho]. intros x Hx.
      unfold numOrOp in Hx. unfold notParen, isParen.
      destruct (typ x); try discriminate; reflexivity.
    + apply Forall_forall. intros x Hx. unfold notParen.
      destruct (isParen x) eqn:E; [|reflexivity].
      assert (existsb isParen (sy_stack st) = true)
        by (apply existsb_exists; eauto).
      congruence.
  - pose proof (syLoop_numbers _ _ _ Hloop (conj (Forall_nil _) (Forall_nil _)))
      as Hn. cbn [syInit sy_out app] in Hn.
    rewrite filter_app, Hn.
    destruct Hinv as [_ Hs]. rewrite (filter_false isNumber (sy_stack st)).
    + apply app_nil_r.
    + eapply Forall_impl; [|exact Hs]. intros x Hx.
      unfold opOrLParen in Hx. unfold isNumber.
      destruct (typ x); try discriminate; reflexivity.
Qed.

Lemma postfix_rearranges_input_witness :
  Permutation [Num "2"; Num "3"; Num "4"; Op "*"; Op "+"]
              (filter notParen [Num "2"; Op "+"; LParen; Num "3"; Op "*"; Num "4"; RParen]) /\
  filter isNumber [Num "2"; Num "3"; Num "4"; Op "*"; Op "+"] =
  filter isNumber [Num "2"; Op "+"; LParen; Num "3"; Op "*"; Num "4"; RParen].
Proof.
  exact (postfix_rearranges_input
           [Num "2"; Op "+"; LParen; Num "3"; Op "*"; Num "4"; RParen]
           [Num "2"; Num "3"; Num "4"; Op "*"; Op "+"] eq_refl).
Defined.

Section Counting.

Variable ParseFloat : string -> option float.

(** Each number adds a value to the stack and each operator takes one
    away. *)
Lemma rpnLoop_depth toks : forall st st',
  rpnLoop ParseFloat toks st = Ok st' ->
  List.length st' + List.length (filter isOperator toks) =
  List.length st + List.length (filter isNumber toks).
Proof.
  induction toks as [|t toks IH]; intros st st' H; cbn [rpnLoop] in H.
  - injection H as <-. reflexivity.
  - apply bind_Ok in H. destruct H as (st1 & Hstep & Hloop).
    apply IH in Hloop. unfold rpnStep in Hstep. cbn [filter].
    unfold isOperator at 1, isNumber at 1.
    destruct (typ t); cbn [tokType_eqb List.length].
    + destruct (ParseFloat (val t)); [|discriminate].
      injection Hstep as <-. cbn [List.length] in Hloop. lia.
    + destruct st as [|b [|a st]]; try discriminate.
      apply bind_Ok in Hstep. destruct Hstep as (r & _ & [= <-]).
      cbn [List.length] in *. lia.
    + injection Hstep as <-. lia.
    + injection Hstep as <-. lia.
Qed.

End Counting.

(** X7: whenever [evalExpr] returns a value, the token sequence holds
    exactly one number more than operators. *)
Theorem value_needs_one_more_number (s : string) (v : float) :
  evalExpr s = Ok v ->
  exists toks,
    tokenize s = Ok toks /\
    List.length (filter isNumber toks) =
    S (List.length (filter isOperator toks)).
Proof.
  unfold evalExpr. intros H.
  apply bind_Ok in H. destruct H as (toks & Htok & H).
  apply bind_Ok in H. destruct H as (rpn & Hsy & H).
  exists toks. split; [assumption|].
  destruct (postfix_rearranges_input _ _ Hsy) as [Hperm Hnum].
  unfold evalRPN in H. apply bind_Ok in H. destruct H as (st & Hloop & Hfin).
  apply rpnLoop_depth in Hloop.
  assert (Hone : List.length st = 1).
  { unfold rpnFinish in Hfin. destruct st as [|x [|y st]]; try discriminate.
    reflexivity. }
  rewrite Hnum, Hone in Hloop. cbn [List.length] in Hloop.
  assert (Hops : List.length (filter isOperator rpn) =
                 List.length (filter isOperator toks)).
  { rewrite (Permutation_length (filter_perm isOperator _ _ Hperm)).
    f_equal. clear. induction toks as [|t toks IH]; [reflexivity|].
    cbn [filter]. destruct (notParen t) eqn:Ep; cbn [filter].
    - now rewrite IH.
    - rewrite IH. unfold notParen, isParen in Ep. unfold isOperator at 2.
      destruct (typ t); try discriminate; reflexivity. }
  lia.
Qed.

Lemma value_needs_one_more_number_witness :
  exists toks,
    tokenize "2+3*4" = Ok toks /\
    List.length (filter isNumber toks) =
    S (List.length (filter isOperator toks)).
Proof. exact (value_needs_one_more_number "2+3*4" 14%float eq_refl). Defined.

(** ** The calculator on the expressions of a grammar *)

Lemma termPostfix_split t : termPostfix t = termEmitted t ++ termPending t.
Proof.
  destruct t; cbn; [now rewrite app_nil_r | now rewrite <- app_assoc].
Qed.

Lemma sumPostfix_split s : sumPostfix s = sumEmitted s ++ sumPending s.
Proof.
  destruct s as [t|t|s o t]; cbn [sumPostfix sumEmitted sumPending].
  - apply termPostfix_split.
  - rewrite termPostfix_split. cbn [app]. now rewrite <- !app_assoc.
  - rewrite termPostfix_split. now rewrite <- !app_assoc.
Qed.

Lemma prec_mulop o : prec (mulopText o) = 2%Z.
Proof. destruct o; reflexivity. Qed.

Lemma prec_addop o : prec (addopText o) = 1%Z.
Proof. destruct o; reflexivity. Qed.

Lemma popOps_pending t P : forall B out,
  Forall (fun x => popsBefore t x = true) P ->
  popOps t (P ++ B) out = popOps t B (out ++ P).
Proof.
  induction P as [|x P IH]; intros B out H; cbn [app popOps].
  - now rewrite app_nil_r.
  - inversion H as [|? ? Hx HP]; subst. unfold popsBefore in Hx. rewrite Hx.
    rewrite IH by assumption. now rewrite <- app_assoc.
Qed.

Lemma popOps_base t B out :
  match B with [] => True | x :: _ => popsBefore t x = false end ->
  popOps t B out = (B, out).
Proof.
  destruct B as [|x B]; cbn [popOps]; [reflexivity|].
  unfold popsBefore. now intros ->.
Qed.

Lemma popToLParen_pending P : forall lp B out,
  Forall (fun x => isLParen x = false) P -> isLParen lp = true ->
  popToLParen (P ++ lp :: B) out = (true, B, out ++ P).
Proof.
  induction P as [|x P IH]; intros lp B out H Hlp; cbn [app popToLParen].
  - unfold isLParen in Hlp. rewrite Hlp. now rewrite app_nil_r.
  - inversion H as [|? ? Hx HP]; subst. unfold isLParen in Hx. rewrite Hx.
    rewrite IH by assumption. now rewrite <- app_assoc.
Qed.

Lemma termPending_pops_mul t o :
  Forall (fun x => popsBefore (Op (mulopText o)) x = true) (termPending t).
Proof.
  destruct t as [a|t o' a]; cbn [termPending]; constructor; [|constructor].
  unfold popsBefore. cbn [typ val tokType_eqb andb].
  rewrite !prec_mulop. reflexivity.
Qed.

Lemma sumPending_pops_add s o :
  Forall (fun x => popsBefore (Op (addopText o)) x = true) (sumPending s).
Proof.
  assert (Ht : forall t, Forall (fun x => popsBefore (Op (addopText o)) x = true)
                                (termPending t)).
  { intros [a|t o' a]; cbn [termPending]; constructor; [|constructor].
    unfold popsBefore. cbn [typ val tokType_eqb andb].
    rewrite prec_mulop, prec_addop. reflexivity. }
  destruct s as [t|t|s o' t]; cbn [sumPending]; [apply Ht| |].
  - apply Forall_app. split; [apply Ht|]. constructor; [|constructor].
    unfold popsBefore. cbn [typ val tokType_eqb andb].
    rewrite !prec_addop. reflexivity.
  - apply Forall_app. split; [apply Ht|]. constructor; [|constructor].
    unfold popsBefore. cbn [typ val tokType_eqb andb].
    rewrite !prec_addop. reflexivity.
Qed.

Lemma sumPending_no_LParen s :
  Forall (fun x => isLParen x = false) (sumPending s).
Proof.
  assert (Ht : forall t, Forall (fun x => isLParen x = false) (termPending t)).
  { intros [a|t o' a]; cbn [termPending]; repeat constructor. }
  destruct s as [t|t|s o' t]; cbn [sumPending]; [apply Ht| |];
    (apply Forall_app; split; [apply Ht | repeat constructor]).
Qed.

Lemma syLoop_expr :
  (forall a out B,
      syLoop (atomRewritten a) (mkSy out B) =
      Ok (mkSy (out ++ atomPostfix a) B)) /\
  (forall t out B, termBase B ->
      syLoop (termRewritten t) (mkSy out B) =
      Ok (mkSy (out ++ termEmitted t) (termPending t ++ B))) /\
  (forall s out B, sumBase B ->
      syLoop (sumRewritten s) (mkSy out B) =
      Ok (mkSy (out ++ sumEmitted s) (sumPending s ++ B))).
Proof.
  apply expr_mutind.
  - (* ANum *) intros text out B. reflexivity.
  - (* AParen *) intros e IH out B.
    cbn [atomRewritten atomPostfix syLoop syStep typ bind sy_out sy_stack].
    rewrite syLoop_app, IH by reflexivity. cbn [bind syLoop syStep typ sy_out sy_stack].
    rewrite popToLParen_pending by (auto using sumPending_no_LParen).
    cbn [bind]. now rewrite <- app_assoc, <- sumPostfix_split.
  - (* TAtom *) intros a IH out B _. cbn [termRewritten termEmitted termPending app].
    apply IH.
  - (* TMul *) intros t IHt o a IHa out B HB.
    cbn [termRewritten termEmitted termPending].
    rewrite syLoop_app, IHt by assumption. cbn [bind syLoop syStep typ sy_out sy_stack].
    rewrite popOps_pending by apply termPending_pops_mul.
    rewrite popOps_base.
    + cbn [bind]. rewrite IHa. cbn [app].
      now rewrite <- !app_assoc, (app_assoc (termEmitted t)), <- termPostfix_split.
    + destruct B as [|x B]; [exact I|]. unfold popsBefore. cbn [val].
      rewrite prec_mulop. exact HB.
  - (* STerm *) intros t IH out B HB. cbn [sumRewritten sumEmitted sumPending].
    apply IH. destruct B as [|x B]; [exact I|]. cbn in *. now rewrite HB.
  - (* SNeg *) intros t IH out B HB.
    cbn [sumRewritten sumEmitted sumPending syLoop syStep typ bind sy_out sy_stack].
    rewrite popOps_base.
    + cbn [bind]. rewrite IH.
      * now rewrite <- !app_assoc.
      * reflexivity.
    + destruct B as [|x B]; [exact I|]. unfold popsBefore. cbn in HB.
      now rewrite HB.
  - (* SAdd *) intros s IHs o t IHt out B HB.
    cbn [sumRewritten sumEmitted sumPending].
    rewrite syLoop_app, IHs by assumption. cbn [bind syLoop syStep typ sy_out sy_stack].
    rewrite popOps_pending by apply sumPending_pops_add.
    rewrite popOps_base.
    + cbn [bind]. rewrite IHt.
      * now rewrite <- !app_assoc, (app_assoc (sumEmitted s)), <- sumPostfix_split.
      * cbn [termBase typ val tokType_eqb andb]. now rewrite prec_addop.
    + destruct B as [|x B]; [exact I|]. unfold popsBefore. cbn in HB.
      now rewrite HB.
Qed.

Lemma shuntingYard_expression (e : sum) :
  shuntingYard (sumRewritten e) = Ok (sumPostfix e).
Proof.
  unfold shuntingYard, syInit.
  rewrite (proj2 (proj2 syLoop_expr) e [] [] I). cbn [bind sy_out sy_stack app].
  rewrite app_nil_r, drain_result.
  replace (existsb isParen (sumPending e)) with false.
  - now rewrite <- sumPostfix_split.
  - symmetry. apply not_true_is_false. intros H.
    apply existsb_exists in H. destruct H as (x & Hin & Hx).
    pose proof (sumPending_pops_add e OpAdd) as Hf.
    rewrite Forall_forall in Hf. specialize (Hf x Hin).
    unfold popsBefore in Hf. unfold isParen in Hx.
    destruct (typ x); discriminate.
Qed.

(** *** The evaluator on postfix expressions *)

Section ValueFacts.

Variable ParseFloat : string -> option float.

Lemma bind_assoc {A B C} (r : result A) (f : A -> result B) (g : B -> result C) :
  bind (bind r f) g = bind r (fun a => bind (f a) g).
Proof. destruct r; reflexivity. Qed.

Lemma rpnLoop_op o a b st rest :
  rpnLoop ParseFloat (Op o :: rest) (b :: a :: st) =
  (r <- applyOp o a b ;; rpnLoop ParseFloat rest (r :: st)).
Proof.
  cbn [rpnLoop rpnStep typ val]. now rewrite bind_assoc.
Qed.

Lemma rpnLoop_expr :
  (forall a rest st,
      rpnLoop ParseFloat (atomPostfix a ++ rest) st =
      (v <- atomValue ParseFloat a ;; rpnLoop ParseFloat rest (v :: st))) /\
  (forall t rest st,
      rpnLoop ParseFloat (termPostfix t ++ rest) st =
      (v <- termValue ParseFloat t ;; rpnLoop ParseFloat rest (v :: st))) /\
  (forall s rest st,
      rpnLoop ParseFloat (sumPostfix s ++ rest) st =
      (v <- sumValue ParseFloat s ;; rpnLoop ParseFloat rest (v :: st))).
Proof.
  apply expr_mutind.
  - intros text rest st. cbn [atomPostfix app rpnLoop rpnStep typ val atomValue].
    destruct (ParseFloat text); reflexivity.
  - intros e IH rest st. apply IH.
  - intros a IH rest st. apply IH.
  - intros t IHt o a IHa rest st. cbn [termPostfix termValue].
    rewrite <- !app_assoc, IHt, bind_assoc.
    destruct (termValue ParseFloat t) as [x|e]; cbn [bind]; [|reflexivity].
    rewrite IHa, bind_assoc.
    destruct (atomValue ParseFloat a) as [y|e]; cbn [bind]; [|reflexivity].
    cbn [app]. apply rpnLoop_op.
  - intros t IH rest st. apply IH.
  - intros t IH rest st. cbn [sumPostfix sumValue app rpnLoop rpnStep typ val].
    unfold zeroValue. destruct (ParseFloat "0") as [z|]; cbn [bind]; [|reflexivity].
    rewrite <- app_assoc, IH.
    destruct (termValue ParseFloat t) as [y|e]; cbn [bind]; [|reflexivity].
    cbn [app]. apply rpnLoop_op.
  - intros s IHs o t IHt rest st. cbn [sumPostfix sumValue].
    rewrite <- !app_assoc, IHs, bind_assoc.
    destruct (sumValue ParseFloat s) as [x|e]; cbn [bind]; [|reflexivity].
    rewrite IHt, bind_assoc.
    destruct (termValue ParseFloat t) as [y|e]; cbn [bind]; [|reflexivity].
    cbn [app]. apply rpnLoop_op.
Qed.

Lemma evalRPN_expression (e : sum) :
  evalRPN ParseFloat (sumPostfix e) =
  (v <- sumValue ParseFloat e ;; rpnFinish [v]).
Proof.
  unfold evalRPN. rewrite <- (app_nil_r (sumPostfix e)).
  rewrite (proj2 (proj2 rpnLoop_expr)), bind_assoc. reflexivity.
Qed.

End ValueFacts.

Lemma scanNumber_app text rest :
  allNumChars text = true -> numberEnds rest = true ->
  scanNumber (text ++ rest) = (text, rest).
Proof.
  intros Ht Hr. induction text as [|c text IH]; cbn [String.append].
  - destruct rest as [|c rest]; cbn [scanNumber]; [reflexivity|].
    cbn in Hr. apply negb_true_iff in Hr. now rewrite Hr.
  - cbn [allNumChars] in Ht. apply andb_prop in Ht. destruct Ht as [Hc Ht].
    cbn [scanNumber]. rewrite Hc, IH by assumption. reflexivity.
Qed.

Lemma scan_number text rest out :
  numberText text = true -> numberEnds rest = true ->
  scan (text ++ rest) out = scan rest (out ++ [Num text]).
Proof.
  destruct text as [|c text]; [discriminate|]. cbn [numberText allNumChars].
  intros H Hr. apply andb_prop in H. destruct H as [Hc Ht].
  cbn [String.append]. simp scan. rewrite Hc.
  now rewrite scanNumber_app.
Qed.

Lemma scan_addop o rest out :
  scan (addopText o ++ rest) out = scan rest (out ++ [Op (addopText o)]).
Proof. destruct o; cbn [addopText String.append]; simp scan; reflexivity. Qed.

Lemma scan_mulop o rest out :
  scan (mulopText o ++ rest) out = scan rest (out ++ [Op (mulopText o)]).
Proof. destruct o; cbn [mulopText String.append]; simp scan; reflexivity. Qed.

Lemma numberEnds_addop o rest : numberEnds (addopText o ++ rest) = true.
Proof. destruct o; reflexivity. Qed.

Lemma numberEnds_mulop o rest : numberEnds (mulopText o ++ rest) = true.
Proof. destruct o; reflexivity. Qed.

Lemma scan_expr :
  (forall a rest out, atomNumbersOk a = true -> numberEnds rest = true ->
      scan (spell (atomTokens a) ++ rest) out = scan rest (out ++ atomTokens a)) /\
  (forall t rest out, termNumbersOk t = true -> numberEnds rest = true ->
      scan (spell (termTokens t) ++ rest) out = scan rest (out ++ termTokens t)) /\
  (forall s rest out, sumNumbersOk s = true -> numberEnds rest = true ->
      scan (spell (sumTokens s) ++ rest) out = scan rest (out ++ sumTokens s)).
Proof.
  apply expr_mutind.
  - intros text rest out Hok Hr. cbn [atomTokens spell val atomNumbersOk] in *.
    rewrite string_app_assoc. cbn [String.append].
    now apply scan_number.
  - intros e IH rest out Hok Hr. cbn [atomTokens atomNumbersOk] in *.
    cbn [spell val String.append]. simp scan. cbn.
    rewrite spell_app, string_app_assoc. cbn [spell val String.append].
    rewrite IH by (assumption || reflexivity).
    simp scan. cbn. now rewrite <- !app_assoc.
  - intros a IH rest out Hok Hr. now apply IH.
  - intros t IHt o a IHa rest out Hok Hr.
    cbn [termTokens termNumbersOk] in *. apply andb_prop in Hok.
    destruct Hok as [Ht Ha].
    rewrite spell_app, string_app_assoc. cbn [spell val].
    rewrite string_app_assoc.
    rewrite IHt by (assumption || apply numberEnds_mulop).
    rewrite scan_mulop, IHa by assumption.
    now rewrite <- !app_assoc.
  - intros t IH rest out Hok Hr. now apply IH.
  - intros t IH rest out Hok Hr. cbn [sumTokens sumNumbersOk] in *.
    cbn [spell val String.append]. simp scan. cbn.
    rewrite IH by assumption. now rewrite <- app_assoc.
  - intros s IHs o t IHt rest out Hok Hr.
    cbn [sumTokens sumNumbersOk] in *. apply andb_prop in Hok.
    destruct Hok as [Hs Ht].
    rewrite spell_app, string_app_assoc. cbn [spell val].
    rewrite string_app_assoc.
    rewrite IHs by (assumption || apply numberEnds_addop).
    rewrite scan_addop, IHt by assumption.
    now rewrite <- !app_assoc.
Qed.

(** The last token of an expression is a number or a right parenthesis, so
    an operator after it is not in unary position; a leading minus sign is,
    at the head of the tokens and after a left parenthesis. *)
Lemma insertZeros_expr :
  (forall a prev rest, exists l,
      unaryPosition (Some l) = false /\
      insertZeros prev (atomTokens a ++ rest) =
      atomRewritten a ++ insertZeros (Some l) rest) /\
  (forall t prev rest, exists l,
      unaryPosition (Some l) = false /\
      insertZeros prev (termTokens t ++ rest) =
      termRewritten t ++ insertZeros (Some l) rest) /\
  (forall s prev rest, unaryPosition prev = true -> exists l,
      unaryPosition (Some l) = false /\
      insertZeros prev (sumTokens s ++ rest) =
      sumRewritten s ++ insertZeros (Some l) rest).
Proof.
  apply expr_mutind.
  - intros text prev rest. exists (Num text). split; reflexivity.
  - intros e IH prev rest. exists RParen. split; [reflexivity|].
    cbn [atomTokens atomRewritten app insertZeros].
    replace (isMinus LParen) with false by reflexivity. cbn [andb app].
    rewrite <- app_assoc.
    destruct (IH (Some LParen) ([RParen] ++ rest) eq_refl) as (l & Hl & ->).
    cbn [app insertZeros].
    replace (isMinus RParen) with false by reflexivity.
    cbn [andb app]. now rewrite <- app_assoc.
  - intros a IH prev rest. apply IH.
  - intros t IHt o a IHa prev rest. cbn [termTokens termRewritten].
    rewrite <- app_assoc.
    destruct (IHt prev ((Op (mulopText o) :: atomTokens a) ++ rest))
      as (l & Hl & ->).
    cbn [app insertZeros]. rewrite Hl, andb_false_r. cbn [app].
    destruct (IHa (Some (Op (mulopText o))) rest) as (l' & Hl' & ->).
    exists l'. split; [assumption|]. now rewrite <- app_assoc.
  - intros t IH prev rest _. apply IH.
  - intros t IH prev rest Hprev. cbn [sumTokens sumRewritten app insertZeros].
    replace (isMinus (Op "-")) with true by reflexivity. rewrite Hprev.
    cbn [andb app].
    destruct (IH (Some (Op "-")) rest) as (l & Hl & ->).
    exists l. split; [assumption | reflexivity].
  - intros s IHs o t IHt prev rest Hprev. cbn [sumTokens sumRewritten].
    rewrite <- app_assoc.
    destruct (IHs prev ((Op (addopText o) :: termTokens t) ++ rest) Hprev)
      as (l & Hl & ->).
    cbn [app insertZeros]. rewrite Hl, andb_false_r. cbn [app].
    destruct (IHt (Some (Op (addopText o))) rest) as (l' & Hl' & ->).
    exists l'. split; [assumption|]. now rewrite <- app_assoc.
Qed.

Lemma rewriteUnaryMinus_expression (e : sum) :
  rewriteUnaryMinus (sumTokens e) = sumRewritten e.
Proof.
  rewrite rewriteUnaryMinus_spec.
  destruct (proj2 (proj2 insertZeros_expr) e None [] eq_refl) as (l & _ & H).
  rewrite !app_nil_r in H. exact H.
Qed.

Lemma firstBad_no_space s : firstBad s = None -> occurs " " s = false.
Proof.
  induction s as [|c s IH]; cbn [firstBad occurs]; [reflexivity|].
  destruct (accepted c) eqn:E; [|discriminate].
  intros H. rewrite (IH H), orb_false_r.
  destruct (Ascii.eqb " " c) eqn:Ec; [|reflexivity].
  apply Ascii.eqb_eq in Ec. subst c. discriminate.
Qed.

(** A text that scans has no space. *)
Lemma scan_no_space s out toks : scan s out = Ok toks -> removeSpaces s = s.
Proof.
  intros H. apply removeSpaces_fixed, firstBad_no_space.
  destruct (firstBad s) as [c|] eqn:E; [|reflexivity].
  rewrite (scan_firstBad_Some _ _ _ E) in H. discriminate.
Qed.

Lemma sumTokens_nonempty e : sumTokens e <> [].
Proof.
  assert (Ha : forall a, atomTokens a <> []) by (intros []; discriminate).
  assert (Ht : forall t, termTokens t <> []).
  { intros [a|t o a]; cbn [termTokens]; [apply Ha|].
    intros Hx. apply app_eq_nil in Hx. destruct Hx; discriminate. }
  destruct e as [t|t|s o t]; cbn [sumTokens]; [apply Ht | discriminate |].
  intros Hx. apply app_eq_nil in Hx. destruct Hx; discriminate.
Qed.

(** X8: on the tokens of an expression of the grammar
    (sums of products of numbers and parenthesised sums, a sum may begin
    with a minus) the rewrite puts a zero before each leading minus,
    [shuntingYard] returns the postfix form of the expression, and
    [evalRPN] computes its value, left to right, whatever the number
    parser. *)
Theorem postfix_of_expression (e : sum) :
  rewriteUnaryMinus (sumTokens e) = sumRewritten e /\
  shuntingYard (sumRewritten e) = Ok (sumPostfix e) /\
  forall ParseFloat,
    evalRPN ParseFloat (sumPostfix e) =
    (v <- sumValue ParseFloat e ;; rpnFinish [v]).
Proof.
  split; [apply rewriteUnaryMinus_expression|].
  split; [apply shuntingYard_expression|].
  intros ParseFloat. apply evalRPN_expression.
Qed.

(** X9: on the text of an expression of the grammar whose numbers are
    digit-and-point runs, [tokenize] returns the expression's tokens and
    [evalExpr] returns the expression's value (or the error of its
    evaluation): precedence, left associativity and the leading minus are
    handled as arithmetic has them. *)
Theorem evalExpr_expression (e : sum) :
  sumNumbersOk e = true ->
  tokenize (spell (sumTokens e)) = Ok (sumRewritten e) /\
  evalExpr (spell (sumTokens e)) =
  (v <- sumValue strconv.ParseFloat e ;; rpnFinish [v]).
Proof.
  intros Hok.
  assert (Hscan : scan (spell (sumTokens e)) [] = Ok (sumTokens e)).
  { rewrite <- (string_app_nil_r (spell (sumTokens e))).
    rewrite (proj2 (proj2 scan_expr) e EmptyString [] Hok eq_refl).
    simp scan. reflexivity. }
  assert (Htok : tokenize (spell (sumTokens e)) = Ok (sumRewritten e)).
  { unfold tokenize. rewrite (scan_no_space _ _ _ Hscan).
    destruct (String.eqb (spell (sumTokens e)) EmptyString) eqn:E.
    - apply String.eqb_eq in E. rewrite E in Hscan. simp scan in Hscan.
      injection Hscan as Hs. symmetry in Hs.
      now apply sumTokens_nonempty in Hs.
    - rewrite Hscan. cbn [bind]. now rewrite rewriteUnaryMinus_expression. }
  split; [exact Htok|].
  unfold evalExpr. rewrite Htok. cbn [bind].
  rewrite shuntingYard_expression. cbn [bind]. apply evalRPN_expression.
Qed.

Lemma evalExpr_expression_witness :
  evalExpr "-2*(3-5)" = Ok 4%float.
Proof.
  exact (proj2 (evalExpr_expression exampleSum eq_refl)).
Defined.

(** ** The password generator *)

Section PasswordFacts.

Variable intSize : Z.
Variable src : nat -> ascii.

Lemma byteVal_bound c : (0 <= byteVal c < 256)%Z.
Proof.
  unfold byteVal. pose proof (N_ascii_bounded c) as H.
  apply N2Z.inj_lt in H. change (Z.of_N 256) with 256%Z in H.
  pose proof (N2Z.is_nonneg (N_of_ascii c)). lia.
Qed.

Lemma lor_bound a b k :
  (0 <= k)%Z -> (0 <= a < 2 ^ k)%Z -> (0 <= b < 2 ^ k)%Z ->
  (0 <= Z.lor a b < 2 ^ k)%Z.
Proof.
  intros Hk Ha Hb. split; [apply Z.lor_nonneg; lia|].
  destruct (Z.eq_dec (Z.lor a b) 0) as [E|E].
  - rewrite E. apply Z.pow_pos_nonneg; lia.
  - assert (Hpos : (0 < k)%Z).
    { destruct (Z.eq_dec k 0) as [->|]; [|lia].
      exfalso. apply E. replace a with 0%Z by (cbn in Ha; lia).
      replace b with 0%Z by (cbn in Hb; lia). reflexivity. }
    apply Z.log2_lt_pow2;
      [assert (0 <= Z.lor a b)%Z by (apply Z.lor_nonneg; lia); lia|].
    rewrite Z.log2_lor by lia.
    apply Z.max_lub_lt.
    + destruct (Z.eq_dec a 0) as [->|Ea]; [cbn; lia|].
      apply Z.log2_lt_pow2; lia.
    + destruct (Z.eq_dec b 0) as [->|Eb]; [cbn; lia|].
      apply Z.log2_lt_pow2; lia.
Qed.

Lemma word_bound x0 x1 x2 x3 :
  (0 <= x0 < 256)%Z -> (0 <= x1 < 256)%Z -> (0 <= x2 < 256)%Z ->
  (0 <= x3 < 256)%Z ->
  (0 <= Z.lor (Z.lor (Z.lor x0 (Z.shiftl x1 8)) (Z.shiftl x2 16))
              (Z.shiftl x3 24) < 2 ^ 32)%Z.
Proof.
  intros H0 H1 H2 H3. rewrite !Z.shiftl_mul_pow2 by lia.
  repeat apply lor_bound; lia.
Qed.

Hypothesis wide : (32 < intSize)%Z.

Lemma wrapInt_small u : (0 <= u < 2 ^ 32)%Z -> wrapInt intSize u = u.
Proof.
  intros Hu. unfold wrapInt.
  assert (H1 : (2 ^ 32 <= 2 ^ (intSize - 1))%Z)
    by (apply Z.pow_le_mono_r; lia).
  assert (H2 : (2 ^ intSize = 2 * 2 ^ (intSize - 1))%Z).
  { replace intSize with (Z.succ (intSize - 1)) at 1 by lia.
    rewrite Z.pow_succ_r by lia. reflexivity. }
  rewrite Z.mod_small by lia. lia.
Qed.

Lemma randInt_positive n pos :
  (0 < n)%Z ->
  exists r, randInt intSize src n pos = Some (r, pos + 4) /\ (0 <= r < n)%Z.
Proof.
  intros Hn. unfold randInt.
  destruct (n <=? 0)%Z eqn:E; [apply Z.leb_le in E; lia|].
  cbv zeta.
  set (u := Z.lor _ _).
  assert (Hu : (0 <= u < 2 ^ 32)%Z) by (apply word_bound; apply byteVal_bound).
  rewrite (wrapInt_small u Hu).
  destruct (u <? 0)%Z eqn:Eu; [apply Z.ltb_lt in Eu; lia|].
  eexists. split; [reflexivity|]. apply Z.rem_bound_pos; lia.
Qed.

Lemma get_occurs s : forall i,
  i < String.length s ->
  exists c, String.get i s = Some c /\ occurs c s = true.
Proof.
  induction s as [|d s IH]; intros i Hi; cbn in Hi; [lia|].
  destruct i as [|i]; cbn [String.get occurs].
  - exists d. now rewrite Ascii.eqb_refl.
  - destruct (IH i) as (c & Hc & Ho); [lia|]. exists c.
    rewrite Ho. split; [assumption | apply orb_true_r].
Qed.

Lemma pick_ok alphabet pos :
  alphabet <> EmptyString ->
  exists c, pick intSize src alphabet pos = Some (c, pos + 4) /\
            occurs c alphabet = true.
Proof.
  intros Hne. unfold pick, bindG.
  destruct (randInt_positive (Z.of_nat (String.length alphabet)) pos)
    as (r & -> & Hr).
  { destruct alphabet; [contradiction | cbn; lia]. }
  unfold index. destruct (r <? 0)%Z eqn:E; [apply Z.ltb_lt in E; lia|].
  destruct (get_occurs alphabet (Z.to_nat r)) as (c & -> & Ho); [lia|].
  exists c. auto.
Qed.

Lemma fill_ok n : forall b pos,
  exists extra,
    fill intSize src n b pos = Some (b ++ extra, pos + 4 * n) /\
    List.length extra = n /\
    Forall (fun c => occurs c all = true) extra.
Proof.
  induction n as [|n IH]; intros b pos; cbn [fill].
  - exists []. rewrite app_nil_r, Nat.mul_0_r, Nat.add_0_r. repeat split.
    constructor.
  - unfold bindG. destruct (pick_ok all pos) as (c & -> & Hc); [discriminate|].
    destruct (IH (b ++ [c]) (pos + 4)) as (extra & -> & Hlen & Hall).
    exists (c :: extra). rewrite <- app_assoc. cbn [app List.length].
    split; [f_equal; f_equal; lia|]. split; [lia|]. now constructor.
Qed.

Lemma nth_error_setNth {A} (l : list A) : forall i j y,
  nth_error (setNth i y l) j =
  if Nat.eqb j i then (if Nat.ltb i (List.length l) then Some y else None)
  else nth_error l j.
Proof.
  induction l as [|x l IH]; intros i j y.
  - cbn. destruct j, i; cbn; try reflexivity; now destruct (Nat.eqb j i).
  - destruct i as [|i], j as [|j]; cbn [setNth nth_error Nat.eqb List.length];
      try reflexivity.
    rewrite IH. destruct (Nat.eqb j i); [|reflexivity].
    change (Nat.ltb (S i) (S (List.length l))) with (Nat.ltb i (List.length l)).
    reflexivity.
Qed.

Lemma length_setNth {A} (l : list A) : forall i y,
  List.length (setNth i y l) = List.length l.
Proof.
  induction l as [|x l IH]; intros [|i] y; cbn; auto.
Qed.

Lemma count_setNth (l : list ascii) : forall i x y c,
  nth_error l i = Some x ->
  count_occ ascii_dec (setNth i y l) c + (if ascii_dec x c then 1 else 0) =
  count_occ ascii_dec l c + (if ascii_dec y c then 1 else 0).
Proof.
  induction l as [|z l IH]; intros [|i] x y c H; cbn [nth_error] in H;
    try discriminate.
  - injection H as ->. cbn [setNth count_occ].
    destruct (ascii_dec x c), (ascii_dec y c); lia.
  - cbn [setNth count_occ]. specialize (IH i x y c H).
    destruct (ascii_dec z c); lia.
Qed.

Lemma swap_ok b i j pos :
  i < List.length b -> (0 <= j < Z.of_nat (List.length b))%Z ->
  exists b', swap b i j pos = Some (b', pos) /\ Permutation b' b.
Proof.
  intros Hi Hj. unfold swap.
  destruct (j <? 0)%Z eqn:E; [apply Z.ltb_lt in E; lia|].
  destruct (nth_error b i) as [x|] eqn:Ex;
    [|apply nth_error_None in Ex; lia].
  destruct (nth_error b (Z.to_nat j)) as [y|] eqn:Ey;
    [|apply nth_error_None in Ey; lia].
  eexists. split; [reflexivity|].
  apply (Permutation_count_occ ascii_dec). intros c.
  assert (Hy : nth_error (setNth i y b) (Z.to_nat j) = Some y).
  { rewrite nth_error_setNth. destruct (Nat.eqb (Z.to_nat j) i); [|assumption].
    apply Nat.ltb_lt in Hi. now rewrite Hi. }
  pose proof (count_setNth _ _ _ x c Hy) as H1.
  pose proof (count_setNth _ _ _ y c Ex) as H2.
  lia.
Qed.

Lemma shuffle_ok i : forall b pos,
  i < List.length b ->
  exists b', shuffle intSize src i b pos = Some (b', pos + 4 * i) /\
             Permutation b' b.
Proof.
  induction i as [|i IH]; intros b pos Hi; cbn [shuffle].
  - exists b. rewrite Nat.mul_0_r, Nat.add_0_r. split; reflexivity.
  - unfold bindG.
    destruct (randInt_positive (Z.of_nat (S i) + 1) pos) as (j & -> & Hj);
      [lia|].
    destruct (swap_ok b (S i) j (pos + 4)) as (b1 & -> & Hp1); [lia | lia |].
    destruct (IH b1 (pos + 4)) as (b2 & -> & Hp2).
    { rewrite (Permutation_length Hp1). lia. }
    exists b2. split; [f_equal; f_equal; lia|]. now rewrite Hp2.
Qed.

Lemma occurs_In c s : occurs c s = true <-> In c (list_ascii_of_string s).
Proof.
  induction s as [|d s IH]; cbn [occurs list_ascii_of_string In].
  - split; [discriminate | contradiction].
  - rewrite orb_true_iff, IH, Ascii.eqb_eq. split; intros [H|H]; auto.
Qed.

(** Everything [genPassword8] does, when [int] is wider than 32 bits. *)
Lemma genPassword8_run pos :
  exists l u d s extra b,
    genPassword8 intSize src pos = Some (string_of_list_ascii b, pos + 60) /\
    Permutation b ([l; u; d; s] ++ extra) /\
    List.length extra = 4 /\
    occurs l lower = true /\ occurs u upper = true /\
    occurs d digs = true /\ occurs s spec = true /\
    Forall (fun c => occurs c all = true) extra.
Proof.
  unfold genPassword8, bindG.
  destruct (pick_ok lower pos) as (l & -> & Hl); [discriminate|].
  destruct (pick_ok upper (pos + 4)) as (u & -> & Hu); [discriminate|].
  destruct (pick_ok digs (pos + 4 + 4)) as (d & -> & Hd); [discriminate|].
  destruct (pick_ok spec (pos + 4 + 4 + 4)) as (s & -> & Hs); [discriminate|].
  cbv zeta. cbn [List.length Nat.sub].
  destruct (fill_ok 4 [l; u; d; s] (pos + 4 + 4 + 4 + 4))
    as (extra & -> & Hlen & Hall).
  rewrite length_app, Hlen. cbn [List.length Nat.add Nat.sub].
  destruct (shuffle_ok 7 ([l; u; d; s] ++ extra) (pos + 4 + 4 + 4 + 4 + 4 * 4))
    as (b & -> & Hp).
  { rewrite length_app, Hlen. cbn. lia. }
  exists l, u, d, s, extra, b. unfold retG.
  split; [f_equal; f_equal; lia|]. auto 10.
Qed.

End PasswordFacts.

Section PasswordReturned.

Variable intSize : Z.
Variable src : nat -> ascii.

Lemma get_Some_occurs s : forall i c,
  String.get i s = Some c -> occurs c s = true.
Proof.
  induction s as [|d s IH]; intros i c H; cbn [String.get] in H;
    [discriminate|].
  cbn [occurs]. destruct i as [|i].
  - injection H as ->. now rewrite Ascii.eqb_refl.
  - rewrite (IH _ _ H). apply orb_true_r.
Qed.

Lemma pick_Some alphabet pos c pos' :
  pick intSize src alphabet pos = Some (c, pos') -> occurs c alphabet = true.
Proof.
  unfold pick, bindG.
  destruct (randInt intSize src _ pos) as [[r p]|]; [|discriminate].
  unfold index. destruct (r <? 0)%Z; [discriminate|].
  destruct (String.get (Z.to_nat r) alphabet) as [x|] eqn:E; [|discriminate].
  intros [= <- _]. exact (get_Some_occurs _ _ _ E).
Qed.

Lemma fill_Some n : forall b pos b' pos',
  fill intSize src n b pos = Some (b', pos') ->
  exists extra,
    b' = b ++ extra /\ List.length extra = n /\
    Forall (fun c => occurs c all = true) extra.
Proof.
  induction n as [|n IH]; intros b pos b' pos'; cbn [fill].
  - intros [= <- _]. exists []. rewrite app_nil_r. repeat split. constructor.
  - unfold bindG.
    destruct (pick intSize src all pos) as [[c p]|] eqn:E; [|discriminate].
    intros H. destruct (IH _ _ _ _ H) as (extra & -> & Hlen & Hall).
    exists (c :: extra). rewrite <- app_assoc. cbn [app List.length].
    split; [reflexivity|]. split; [lia|].
    constructor; [exact (pick_Some _ _ _ _ E) | assumption].
Qed.

Lemma swap_Some b i j pos b' pos' :
  swap b i j pos = Some (b', pos') -> Permutation b' b.
Proof.
  unfold swap. destruct (j <? 0)%Z; [discriminate|].
  destruct (nth_error b i) as [x|] eqn:Ex; [|discriminate].
  destruct (nth_error b (Z.to_nat j)) as [y|] eqn:Ey; [|discriminate].
  intros [= <- _].
  assert (Hi : i < List.length b)
    by (apply nth_error_Some; congruence).
  apply (Permutation_count_occ ascii_dec). intros c.
  assert (Hy : nth_error (setNth i y b) (Z.to_nat j) = Some y).
  { rewrite nth_error_setNth. destruct (Nat.eqb (Z.to_nat j) i); [|assumption].
    apply Nat.ltb_lt in Hi. now rewrite Hi. }
  pose proof (count_setNth _ _ _ x c Hy) as H1.
  pose proof (count_setNth _ _ _ y c Ex) as H2.
  lia.
Qed.

Lemma shuffle_Some i : forall b pos b' pos',
  shuffle intSize src i b pos = Some (b', pos') -> Permutation b' b.
Proof.
  induction i as [|i IH]; intros b pos b' pos'; cbn [shuffle].
  - intros [= <- _]. reflexivity.
  - unfold bindG.
    destruct (randInt intSize src _ pos) as [[j p]|]; [|discriminate].
    destruct (swap b (S i) j p) as [[b1 p1]|] eqn:E; [|discriminate].
    intros H. rewrite (IH _ _ _ _ H). exact (swap_Some _ _ _ _ _ _ E).
Qed.

(** What a password that [genPassword8] returns is made of, whatever the
    width of [int]. *)
Lemma genPassword8_Some pos pw pos' :
  genPassword8 intSize src pos = Some (pw, pos') ->
  exists l u d s extra b,
    pw = string_of_list_ascii b /\
    Permutation b ([l; u; d; s] ++ extra) /\
    occurs l lower = true /\ occurs u upper = true /\
    occurs d digs = true /\ occurs s spec = true /\
    Forall (fun c => occurs c all = true) extra.
Proof.
  unfold genPassword8, bindG at 1.
  destruct (pick intSize src lower pos) as [[l p1]|] eqn:El; [|discriminate].
  unfold bindG at 1.
  destruct (pick intSize src upper p1) as [[u p2]|] eqn:Eu; [|discriminate].
  unfold bindG at 1.
  destruct (pick intSize src digs p2) as [[d p3]|] eqn:Ed; [|discriminate].
  unfold bindG at 1.
  destruct (pick intSize src spec p3) as [[s p4]|] eqn:Es; [|discriminate].
  cbv zeta. unfold bindG at 1.
  destruct (fill intSize src _ [l; u; d; s] p4) as [[b1 p5]|] eqn:Ef;
    [|discriminate].
  unfold bindG at 1.
  destruct (shuffle intSize src _ b1 p5) as [[b p6]|] eqn:Eh; [|discriminate].
  intros [= <- _].
  destruct (fill_Some _ _ _ _ _ Ef) as (extra & -> & _ & Hall).
  exists l, u, d, s, extra, b. split; [reflexivity|].
  split; [exact (shuffle_Some _ _ _ _ _ Eh)|].
  repeat split;
    [exact (pick_Some _ _ _ _ El) | exact (pick_Some _ _ _ _ Eu) |
     exact (pick_Some _ _ _ _ Ed) | exact (pick_Some _ _ _ _ Es) | exact Hall].
Qed.

End PasswordReturned.

Lemma length_string_of_list b :
  String.length (string_of_list_ascii b) = List.length b.
Proof. induction b as [|c b IH]; cbn; [reflexivity | now rewrite IH]. Qed.

Lemma occurs_string_of_list c b :
  occurs c (string_of_list_ascii b) = true <-> In c b.
Proof.
  rewrite occurs_In, list_ascii_of_string_of_list_ascii. reflexivity.
Qed.

(** X10: where [int] has more than 32 bits, [randInt n] is 0 without reading
    a byte when [n <= 0], and otherwise reads four bytes and returns a
    value [r] with [0 <= r < n]. *)
Theorem randInt_in_range (intSize : Z) (src : nat -> ascii) (n : Z) (pos : nat) :
  (32 < intSize)%Z ->
  ((n <= 0)%Z -> randInt intSize src n pos = Some (0%Z, pos)) /\
  ((0 < n)%Z ->
   exists r, randInt intSize src n pos = Some (r, pos + 4) /\ (0 <= r < n)%Z).
Proof.
  intros Hw. split.
  - intros Hn. unfold randInt. apply Z.leb_le in Hn. now rewrite Hn.
  - now apply randInt_positive.
Qed.

Lemma randInt_in_range_witness :
  exists r,
    randInt 64 exampleSource 26 0 = Some (r, 4) /\ (0 <= r < 26)%Z.
Proof.
  exact (proj2 (randInt_in_range 64 exampleSource 26 0 eq_refl) eq_refl).
Defined.

(** X11: where [int] has more than 32 bits, [genPassword8] never panics: it
    reads 60 random bytes (15 calls of [randInt]) and returns a password
    of 8 bytes. *)
Theorem genPassword8_eight_bytes (intSize : Z) (src : nat -> ascii) (pos : nat) :
  (32 < intSize)%Z ->
  exists pw,
    genPassword8 intSize src pos = Some (pw, pos + 60) /\
    String.length pw = 8.
Proof.
  intros Hw.
  destruct (genPassword8_run intSize src Hw pos)
    as (l & u & d & s & extra & b & Hrun & Hperm & Hlen & _).
  eexists. split; [exact Hrun|].
  rewrite length_string_of_list, (Permutation_length Hperm), length_app, Hlen.
  reflexivity.
Qed.

Lemma genPassword8_eight_bytes_witness :
  exists pw,
    genPassword8 64 exampleSource 0 = Some (pw, 60) /\ String.length pw = 8.
Proof. exact (genPassword8_eight_bytes 64 exampleSource 0 eq_refl). Defined.

(** X12: a password [genPassword8] returns, whatever the width of [int],
    holds a lower-case letter, an upper-case letter, a digit and a special
    character, every byte of it comes from the four alphabets, and none is
    the backquote that delimits the password in the Markdown reply. *)
Theorem genPassword8_categories
  (intSize : Z) (src : nat -> ascii) (pos pos' : nat) (pw : string) :
  genPassword8 intSize src pos = Some (pw, pos') ->
  hasFrom lower pw /\ hasFrom upper pw /\ hasFrom digs pw /\ hasFrom spec pw /\
  (forall c, occurs c pw = true -> occurs c all = true) /\
  occurs "`" pw = false.
Proof.
  intros Hrun.
  destruct (genPassword8_Some intSize src pos pw pos' Hrun)
    as (l & u & d & s & extra & b & -> & Hperm & Hl & Hu & Hd & Hs & Hall).
  assert (Hin : forall c, In c ([l; u; d; s] ++ extra) ->
                          occurs c (string_of_list_ascii b) = true).
  { intros c Hc. apply occurs_string_of_list.
    eapply Permutation_in; [symmetry; exact Hperm | exact Hc]. }
  assert (Hsub : forall (a1 a2 : string) c,
             occurs c a1 = true -> occurs c (a1 ++ a2) = true).
  { intros a1 a2 c. induction a1 as [|x a1 IH]; cbn [occurs String.append];
      [discriminate|].
    intros H. apply orb_prop in H. destruct H as [-> | H]; [reflexivity|].
    rewrite (IH H). apply orb_true_r. }
  assert (Hsub' : forall (a1 a2 : string) c,
             occurs c a2 = true -> occurs c (a1 ++ a2) = true).
  { intros a1 a2 c H. induction a1 as [|x a1 IH]; cbn [occurs String.append];
      [assumption|]. rewrite IH. apply orb_true_r. }
  assert (Halpha : forall c, occurs c (string_of_list_ascii b) = true ->
                             occurs c all = true).
  { intros c Hc. apply occurs_string_of_list in Hc.
    apply (Permutation_in _ Hperm) in Hc.
    cbn [app In] in Hc. unfold all.
    destruct Hc as [<- | [<- | [<- | [<- | Hc]]]].
    - now apply Hsub.
    - now apply Hsub', Hsub.
    - now apply Hsub', Hsub', Hsub.
    - now apply Hsub', Hsub', Hsub'.
    - rewrite Forall_forall in Hall. exact (Hall c Hc). }
  repeat split.
  - exists l. split; [assumption|]. apply Hin. cbn; auto.
  - exists u. split; [assumption|]. apply Hin. cbn; auto.
  - exists d. split; [assumption|]. apply Hin. cbn; auto.
  - exists s. split; [assumption|]. apply Hin. cbn; auto.
  - exact Halpha.
  - destruct (occurs "`" (string_of_list_ascii b)) eqn:E; [|reflexivity].
    apply Halpha in E. discriminate E.
Qed.

(** A password of a 32-bit run. *)
Lemma genPassword8_categories_witness :
  hasFrom lower "bXBl5;c{" /\ hasFrom upper "bXBl5;c{" /\
  hasFrom digs "bXBl5;c{" /\ hasFrom spec "bXBl5;c{" /\
  (forall c, occurs c "bXBl5;c{" = true -> occurs c all = true) /\
  occurs "`" "bXBl5;c{" = false.
Proof.
  exact (genPassword8_categories 32 exampleSource 0 60 "bXBl5;c{" eq_refl).
Defined.

(** X13: where [int] has 32 bits and the four random bytes read are
    00 00 00 80, [-v] overflows, [randInt 26] returns -24 and
    [genPassword8] panics on the index out of range. *)
Theorem genPassword8_panics_on_32_bits (src : nat -> ascii) (pos : nat) :
  byteVal (src pos) = 0%Z -> byteVal (src (pos + 1)) = 0%Z ->
  byteVal (src (pos + 2)) = 0%Z -> byteVal (src (pos + 3)) = 128%Z ->
  randInt 32 src 26 pos = Some ((-24)%Z, pos + 4) /\
  genPassword8 32 src pos = None.
Proof.
  intros H0 H1 H2 H3.
  assert (Hr : randInt 32 src 26 pos = Some ((-24)%Z, pos + 4)).
  { unfold randInt. cbn [Z.leb Z.compare]. cbv zeta.
    rewrite Nat.add_0_r, H0, H1, H2, H3. reflexivity. }
  split; [exact Hr|].
  unfold genPassword8, bindG at 1, pick, bindG at 1.
  change (Z.of_nat (String.length lower)) with 26%Z. rewrite Hr. reflexivity.
Qed.

Lemma genPassword8_panics_on_32_bits_witness :
  genPassword8 32 (fun n => if Nat.eqb n 3 then ascii_of_nat 128 else Ascii.zero) 0 = None.
Proof.
  exact (proj2 (genPassword8_panics_on_32_bits
                  (fun n => if Nat.eqb n 3 then ascii_of_nat 128 else Ascii.zero) 0
                  eq_refl eq_refl eq_refl eq_refl)).
Defined.

(** ** Note encryption *)

(** X14: for a key of 16, 24 or 32 bytes and a GCM whose [Open] inverts
    [Seal], [encryptAESGCM] returns the 12-byte nonce followed by the
    sealed text, and [decryptAESGCM] of that returns the plaintext. *)
Theorem decrypt_encrypt_round_trip
  (Seal : list ascii -> list ascii -> list ascii -> list ascii)
  (Open : list ascii -> list ascii -> list ascii -> option (list ascii))
  (key plaintext nonce : list ascii) :
  (forall k n p, Open k n (Seal k n p) = Some p) ->
  validKeySize key = true -> List.length nonce = NonceSize ->
  encryptAESGCM Seal key plaintext (Some nonce) =
    inl (nonce ++ Seal key nonce plaintext) /\
  decryptAESGCM Open key (nonce ++ Seal key nonce plaintext) = inl plaintext.
Proof.
  intros Hlaw Hkey Hn. unfold encryptAESGCM, decryptAESGCM.
  rewrite Hkey. cbn [negb]. split; [reflexivity|].
  assert (Hlen : Nat.ltb (List.length (nonce ++ Seal key nonce plaintext))
                         NonceSize = false).
  { apply Nat.ltb_ge. rewrite length_app. lia. }
  rewrite Hlen. cbv zeta.
  rewrite <- Hn, firstn_app, Nat.sub_diag, firstn_all, firstn_O, app_nil_r.
  rewrite skipn_app, Nat.sub_diag, skipn_all, skipn_O. cbn [app].
  now rewrite Hlaw.
Qed.

Lemma decrypt_encrypt_round_trip_witness :
  decryptAESGCM plainOpen exampleKey
    (exampleNonce ++ plainSeal exampleKey exampleNonce (list_ascii_of_string "note")) =
  inl (list_ascii_of_string "note").
Proof.
  exact (proj2 (decrypt_encrypt_round_trip plainSeal plainOpen exampleKey
                  (list_ascii_of_string "note") exampleNonce
                  (fun k n p => eq_refl) eq_refl eq_refl)).
Defined.

(** ** The message handler *)

Section HandlerFacts.

Variable TrimSpace : string -> string.
Variable intSize : Z.
Variable src : nat -> ascii.

Lemma setMode_noteFree states user mode :
  noteFree states -> mode <> ModeNoteAwaitContent ->
  noteFree (setMode states user mode).
Proof.
  intros H Hm u. unfold setMode. destruct (Z.eqb u user); [congruence | apply H].
Qed.

Lemma handleMessage_noteFree states m saved pos r pos' :
  noteFree states ->
  handleMessage TrimSpace intSize src states m saved pos = Some (r, pos') ->
  noteFree (fst r) /\
  Forall (fun o => body o <> txtSaved /\ to o = Chat_ID m) (snd r) /\
  handleMessage TrimSpace intSize src states m None pos = Some (r, pos').
Proof.
  intros Hfree. unfold handleMessage. cbv zeta.
  assert (Hmode : match states (From_ID m) with
                  | Some mode => mode
                  | None => ModeNone
                  end <> ModeNoteAwaitContent).
  { destruct (states (From_ID m)) as [mode|] eqn:E; [|discriminate].
    intros ->. exact (Hfree _ E). }
  set (mode := match states (From_ID m) with
               | Some mode => mode
               | None => ModeNone
               end) in *.
  assert (H1 : noteFree (setMode states (From_ID m) mode))
    by now apply setMode_noteFree.
  assert (Hset : forall md, md <> ModeNoteAwaitContent ->
            noteFree (setMode (setMode states (From_ID m) mode) (From_ID m) md))
    by (intros; now apply setMode_noteFree).
  destruct (IsStart m).
  { intros [= <- <-]. cbn [fst snd]. repeat split; auto.
    - apply Hset; discriminate.
    - repeat constructor. discriminate. }
  destruct (String.eqb (TrimSpace (Text m)) btnCalc).
  { intros [= <- <-]. cbn [fst snd]. repeat split; auto.
    - apply Hset; discriminate.
    - repeat constructor. discriminate. }
  destruct (String.eqb (TrimSpace (Text m)) btnPass).
  { unfold bindG. destruct (genPassword8 intSize src pos) as [[pass p]|];
      [|discriminate].
    intros [= <- <-]. cbn [fst snd]. repeat split; auto.
    - apply Hset; discriminate.
    - repeat constructor. cbn [body]. discriminate. }
  destruct (String.eqb (TrimSpace (Text m)) btnNotes).
  { intros [= <- <-]. cbn [fst snd]. repeat split; auto.
    - apply Hset; discriminate.
    - repeat constructor. discriminate. }
  destruct mode; [| |contradiction].
  - intros [= <- <-]. cbn [fst snd]. repeat split; auto.
    repeat constructor. discriminate.
  - destruct (String.eqb (TrimSpace (Text m)) EmptyString).
    { intros [= <- <-]. cbn [fst snd]. repeat split; auto.
      repeat constructor. discriminate. }
    destruct (evalExpr (TrimSpace (Text m))) as [v|e].
    + intros [= <- <-]. cbn [fst snd]. repeat split; auto.
      * apply Hset; discriminate.
      * repeat constructor. cbn [body]. discriminate.
    + intros [= <- <-]. cbn [fst snd]. repeat split; auto.
      repeat constructor. cbn [body]. discriminate.
Qed.

End HandlerFacts.

Lemma handleAll_noteFree TrimSpace intSize src msgs :
  forall states pos r pos',
  noteFree states ->
  handleAll TrimSpace intSize src states msgs pos = Some (r, pos') ->
  noteFree (fst r) /\
  Forall (fun o => body o <> txtSaved) (snd r) /\
  handleAll TrimSpace intSize src states
    (map (fun p => (fst p, None)) msgs) pos = Some (r, pos').
Proof.
  induction msgs as [|[m saved] rest IH]; intros states pos r pos' Hfree.
  - intros [= <- <-]. cbn. auto.
  - cbn [handleAll map fst]. unfold bindG at 1 3.
    destruct (handleMessage TrimSpace intSize src states m saved pos)
      as [[r1 p1]|] eqn:E1; [|discriminate].
    destruct (handleMessage_noteFree TrimSpace intSize src _ _ _ _ _ _ Hfree E1)
      as (F1 & O1 & N1).
    rewrite N1. unfold bindG at 1 2.
    destruct (handleAll TrimSpace intSize src (fst r1) rest p1)
      as [[r2 p2]|] eqn:E2; [|discriminate].
    destruct (IH _ _ _ _ F1 E2) as (F2 & O2 & N2).
    rewrite N2. intros [= <- <-]. cbn [fst snd]. repeat split; auto.
    apply Forall_app. split; [|exact O2].
    eapply Forall_impl; [|exact O1]. now intros o [H _].
Qed.

(** X15: starting from the empty [states] of [main], whatever messages
    arrive, no user is ever in [ModeNoteAwaitContent], the confirmation of
    a saved note is never sent, and the outcome of [saveNote] has no
    influence: the handler never saves a note. *)
Theorem note_mode_is_unreachable TrimSpace intSize src msgs pos r pos' :
  handleAll TrimSpace intSize src noStates msgs pos = Some (r, pos') ->
  noteFree (fst r) /\
  Forall (fun o => body o <> txtSaved) (snd r) /\
  handleAll TrimSpace intSize src noStates
    (map (fun p => (fst p, None)) msgs) pos = Some (r, pos').
Proof.
  apply handleAll_noteFree. intros u. discriminate.
Qed.

Lemma note_mode_is_unreachable_witness :
  exists r pos',
    handleAll (fun s => s) 64 exampleSource noStates exampleMessages 0
      = Some (r, pos') /\
    map body (snd r) =
      [txtGreeting; txtNotes; txtFallback; txtAskExpr; "= 2.8";
       "Твой пароль: `bf1o[;X{`"] /\
    noteFree (fst r) /\
    Forall (fun o => body o <> txtSaved) (snd r).
Proof.
  destruct (handleAll (fun s => s) 64 exampleSource noStates exampleMessages 0)
    as [[r pos']|] eqn:E.
  - exists r, pos'. split; [reflexivity|]. split.
    + vm_compute in E. injection E as <- _. reflexivity.
    + destruct (note_mode_is_unreachable _ _ _ _ _ _ _ E) as (H1 & H2 & _).
      now split.
  - vm_compute in E. discriminate E.
Defined.

(** X16: [handleMessage], when it returns, has sent exactly one message,
    to the chat of the incoming message, has left the mode of every other
    user unchanged, and the sender has an entry in [states]. *)
Theorem handleMessage_touches_sender_only
  TrimSpace intSize src states m saved pos r pos' :
  handleMessage TrimSpace intSize src states m saved pos = Some (r, pos') ->
  (exists text parse markup,
     snd r = [mkOutgoing (Chat_ID m) text parse markup]) /\
  (forall u, u <> From_ID m -> fst r u = states u) /\
  fst r (From_ID m) <> None.
Proof.
  unfold handleMessage. cbv zeta.
  set (mode := match states (From_ID m) with
               | Some mode => mode
               | None => ModeNone
               end).
  assert (Hset : forall md u, u <> From_ID m ->
            setMode (setMode states (From_ID m) mode) (From_ID m) md u
            = states u).
  { intros md u Hu. unfold setMode.
    destruct (Z.eqb_spec u (From_ID m)); [contradiction | reflexivity]. }
  assert (H1 : forall u, u <> From_ID m ->
            setMode states (From_ID m) mode u = states u).
  { intros u Hu. unfold setMode.
    destruct (Z.eqb_spec u (From_ID m)); [contradiction | reflexivity]. }
  assert (Hme : forall st md, setMode st (From_ID m) md (From_ID m) <> None).
  { intros st md. unfold setMode. now rewrite Z.eqb_refl. }
  unfold retG, bindG.
  repeat match goal with
         | |- context [if ?b then _ else _] => destruct b
         | |- context [genPassword8 ?a ?b ?c] =>
             destruct (genPassword8 a b c) as [[? ?]|]
         | |- context [match mode with _ => _ end] => destruct mode
         | |- context [match evalExpr ?e with _ => _ end] =>
             destruct (evalExpr e)
         | |- context [match messageToPayload ?t ?x with _ => _ end] =>
             destruct (messageToPayload t x)
         | |- context [match saved with _ => _ end] => destruct saved
         end;
    try discriminate;
    intros [= <- <-]; cbn [fst snd]; (split; [eauto | split; auto]).
Qed.

Lemma handleMessage_touches_sender_only_witness :
  exists r pos',
    handleMessage (fun s => s) 64 exampleSource
      (setMode noStates 3 ModeCalcAwaitExpr) (exampleMessage btnPass) None 0
      = Some (r, pos') /\
    snd r = [mkOutgoing 7 "Твой пароль: `bf1o[;X{`" "Markdown" MainKeyboard] /\
    fst r 3%Z = Some ModeCalcAwaitExpr /\
    fst r 7%Z <> None.
Proof.
  destruct (handleMessage (fun s => s) 64 exampleSource
      (setMode noStates 3 ModeCalcAwaitExpr) (exampleMessage btnPass) None 0)
    as [[r pos']|] eqn:E.
  - exists r, pos'. split; [reflexivity|].
    destruct (handleMessage_touches_sender_only _ _ _ _ _ _ _ _ _ E)
      as (_ & H2 & H3).
    split.
    + vm_compute in E. injection E as <- _. reflexivity.
    + split; [|exact H3]. rewrite H2; [reflexivity | discriminate].
  - vm_compute in E. discriminate E.
Defined.
